(** * mandeljs: a shallow embedding of [mandel.js]

    The program renders the Mandelbrot set on a canvas and lets the user zoom
    by dragging a selection rectangle or pressing [z].  This file embeds the
    numeric pipeline ([map], [mandel], [normalize], the grid pass of
    [createMandelImage]) and the event handlers of the [onload] closure, and
    proves the properties the specification states about them.

    Numbers.  A JavaScript number is modelled as an exact rational extended
    with [Infinity], [-Infinity] and [NaN]: the arithmetic is that of the
    reals the specification quantifies over, and the three special values
    are kept because the code reaches them through division by zero and
    through reading [undefined] from an array.  Rounding and overflow of
    IEEE doubles are not modelled, and neither is the sign of zero (a zero
    divisor is read as [+0]).

    Counters.  Loop counters, array indices and escape counts are natural
    numbers, so a count is never negative or fractional; an array is a
    list, read with stdpp's lookup.  The bound an engine puts on the length
    of an array is not modelled. *)

From Stdlib Require Import QArith Qcanon Qround.
From stdpp Require Import base numbers list strings.

(** ** JavaScript numbers *)

Module Num.

Inductive number : Type :=
  | Fin (q : Qc)
  | PInf
  | NInf
  | NaN.

Definition of_Z (z : Z) : number := Fin (Qc_of_Z z).
Definition of_nat (n : nat) : number := of_Z (Z.of_nat n).

Definition is_finite (x : number) : bool :=
  match x with Fin _ => true | _ => false end.

(** [Infinity] carrying the sign of a non-zero rational. *)
Definition signed_inf (q : Qc) : number :=
  if bool_decide (0 < q)%Qc then PInf else NInf.

Definition neg (x : number) : number :=
  match x with
  | Fin q => Fin (- q)%Qc
  | PInf => NInf
  | NInf => PInf
  | NaN => NaN
  end.

Definition add (x y : number) : number :=
  match x, y with
  | NaN, _ | _, NaN => NaN
  | Fin a, Fin b => Fin (a + b)%Qc
  | PInf, NInf | NInf, PInf => NaN
  | PInf, _ | _, PInf => PInf
  | NInf, _ | _, NInf => NInf
  end.

Definition sub (x y : number) : number := add x (neg y).

Definition mul (x y : number) : number :=
  match x, y with
  | NaN, _ | _, NaN => NaN
  | Fin a, Fin b => Fin (a * b)%Qc
  | Fin a, PInf | PInf, Fin a =>
      if bool_decide (a = 0)%Qc then NaN else signed_inf a
  | Fin a, NInf | NInf, Fin a =>
      if bool_decide (a = 0)%Qc then NaN else neg (signed_inf a)
  | PInf, PInf | NInf, NInf => PInf
  | PInf, NInf | NInf, PInf => NInf
  end.

(** Division never fails: a finite number over zero is [NaN] or an
    infinity. *)
Definition div (x y : number) : number :=
  match x, y with
  | NaN, _ | _, NaN => NaN
  | Fin a, Fin b =>
      if bool_decide (b = 0)%Qc
      then (if bool_decide (a = 0)%Qc then NaN else signed_inf a)
      else Fin (a / b)%Qc
  | Fin _, (PInf | NInf) => Fin 0%Qc
  | PInf, Fin b => if bool_decide (0 ≤ b)%Qc then PInf else NInf
  | NInf, Fin b => if bool_decide (0 ≤ b)%Qc then NInf else PInf
  | (PInf | NInf), (PInf | NInf) => NaN
  end.

(** [x < y]; every comparison with [NaN] is false. *)
Definition lt (x y : number) : bool :=
  match x, y with
  | NaN, _ | _, NaN => false
  | Fin a, Fin b => bool_decide (a < b)%Qc
  | _, NInf => false
  | NInf, _ => true
  | PInf, _ => false
  | Fin _, PInf => true
  end.

Definition gt (x y : number) : bool := lt y x.

(** [x <= y]. *)
Definition le (x y : number) : bool :=
  match x, y with
  | NaN, _ | _, NaN => false
  | Fin a, Fin b => bool_decide (a ≤ b)%Qc
  | NInf, _ => true
  | _, PInf => true
  | _, _ => false
  end.

(** [Math.ceil]. *)
Definition ceil (x : number) : number :=
  match x with
  | Fin q => of_Z (Qceiling q)
  | _ => x
  end.

(** [x === y] on numbers: [NaN] equals nothing. *)
Definition eqb (x y : number) : bool :=
  match x, y with
  | Fin a, Fin b => bool_decide (a = b)
  | PInf, PInf | NInf, NInf => true
  | _, _ => false
  end.

(** The integer part of a rational, rounding toward zero. *)
Definition trunc (q : Qc) : Z := Z.quot (Qnum q) (Z.pos (Qden q)).

(** [x % y]: the remainder has the sign of the dividend. *)
Definition rem (x y : number) : number :=
  match x, y with
  | Fin a, Fin b =>
      if bool_decide (b = 0)%Qc then NaN
      else Fin (a - b * Qc_of_Z (trunc (a / b)))%Qc
  | Fin a, (PInf | NInf) => Fin a
  | _, _ => NaN
  end.

(** [Math.min] and [Math.max] of two numbers; [NaN] if either is. *)
Definition min (x y : number) : number :=
  match x, y with
  | NaN, _ | _, NaN => NaN
  | _, _ => if lt y x then y else x
  end.

Definition max (x y : number) : number :=
  match x, y with
  | NaN, _ | _, NaN => NaN
  | _, _ => if lt x y then y else x
  end.

(** Storing a number in a [Uint8ClampedArray]: [NaN] becomes 0, the value
    is clamped to [0, 255] and rounded to the nearest integer, ties to
    even. *)
Definition round_half_even (q : Qc) : Z :=
  let f := Qfloor q in
  let r := (q - Qc_of_Z f)%Qc in
  if bool_decide (r < 1 / 2)%Qc then f
  else if bool_decide (1 / 2 < r)%Qc then (f + 1)%Z
  else if Z.even f then f else (f + 1)%Z.

Definition to_uint8_clamp (x : number) : Z :=
  match x with
  | NaN => 0
  | NInf => 0
  | PInf => 255
  | Fin q =>
      if bool_decide (q ≤ 0)%Qc then 0
      else if bool_decide (Qc_of_Z 255 ≤ q)%Qc then 255
      else round_half_even q
  end.

End Num.

Export Num.

Declare Scope num_scope.
Delimit Scope num_scope with num.
Bind Scope num_scope with number.
Infix "+" := add : num_scope.
Infix "-" := sub : num_scope.
Infix "*" := mul : num_scope.
Infix "/" := div : num_scope.
Infix ">?" := gt (at level 70, no associativity) : num_scope.
Infix "<?" := lt (at level 70, no associativity) : num_scope.
Infix "<=?" := le (at level 70, no associativity) : num_scope.
Notation "# z" := (of_Z z) (at level 8, format "# z") : num_scope.

(** ** How a call completes *)

(** The errors the specification names. *)
Inductive error : Type :=
  | DegenerateRangeError
  | EmptyHistogramError.

(** A call either returns a value or throws. *)
Inductive completion (A : Type) : Type :=
  | Returns (v : A)
  | Throws (e : error).
Arguments Returns {A} v.
Arguments Throws {A} e.

(** ** [map]: affine range mapping *)

Definition map (s1 s2 t1 t2 s : number) : number :=
  (t1 + (s - s1) / (s2 - s1) * (t2 - t1))%num.

(** The body of [map] is one arithmetic expression and has no [throw]:
    every call returns the value of that expression. *)
Definition call_map (s1 s2 t1 t2 s : number) : completion number :=
  Returns (map s1 s2 t1 t2 s).

(** ** [mandel]: escape-time evaluation *)

(** The [while (n < max)] loop, transcribed with its guard; [fuel] bounds
    the number of times the guard is evaluated. *)
Fixpoint mandel_loop (fuel : nat) (x y : number) (max : nat)
    (n : nat) (a b : number) : option nat :=
  match fuel with
  | O => None
  | S fuel' =>
      if (n <? max)%nat then
        let a2 := (a * a)%num in
        let b2 := (b * b)%num in
        if (a2 + b2 >? #4)%num then Some n
        else mandel_loop fuel' x y max (S n)
               (a2 - b2 + x)%num (#2 * a * b + y)%num
      else Some n
  end.

(** The same loop by recursion on the [max - n] iterations that remain, which
    makes it total. *)
Fixpoint mandel_iter (x y : number) (left : nat) (n : nat) (a b : number)
    : nat :=
  match left with
  | O => n
  | S left' =>
      let a2 := (a * a)%num in
      let b2 := (b * b)%num in
      if (a2 + b2 >? #4)%num then n
      else mandel_iter x y left' (S n) (a2 - b2 + x)%num (#2 * a * b + y)%num
  end.

Definition mandel (x y : number) (max : nat) : nat :=
  mandel_iter x y max 0 x y.

(** ** Arrays of numbers *)

(** [a[i]] where the value is used as a number: reading past the end gives
    [undefined], which arithmetic turns into [NaN]. *)
Definition get (a : list number) (i : nat) : number := default NaN (a !! i).

(** [a[i] = v]: inside the array the element is replaced; past the end the
    array grows, the skipped positions being holes (read as [undefined]). *)
Definition set (a : list number) (i : nat) (v : number) : list number :=
  if decide (i < length a)%nat then <[i := v]> a
  else a ++ replicate (i - length a) NaN ++ [v].

(** [for (let i = lo; i < hi; i++) body], threading the loop state. *)
Definition for_loop {S : Type} (lo hi : nat) (body : nat → S → S) (s : S)
    : S :=
  foldl (λ s i, body i s) s (seq lo (hi - lo)).

(** ** [normalize]: histogram equalization *)

Definition histogram (ns : list nat) (max : nat) : list number :=
  foldl (λ hist n, set hist n (get hist n + #1)%num)
        (replicate max (#0)%num)
        (filter (λ n, n < max)%nat ns).

Definition cumulative (hist : list number) (max : nat) : list number :=
  let cumul := replicate max (#0)%num in
  let cumul := set cumul 0 (get hist 0) in
  for_loop 1 max
    (λ i cumul, set cumul i (get cumul (i - 1) + get hist i)%num) cumul.

Definition normalize (ns : list nat) (max : nat) : list number :=
  let hist := histogram ns max in
  let cumul := cumulative hist max in
  let div := (get cumul (length cumul - 1) / of_nat max)%num in
  (λ n, if decide (n = max) then of_nat max
        else ceil (get cumul n / div)%num) <$> ns.

(** [normalize] has no [throw] either, and no operation in it fails on
    numbers: every call returns the mapped array. *)
Definition call_normalize (ns : list nat) (max : nat)
    : completion (list number) :=
  Returns (normalize ns max).

(** ** [createMandelImage]: the grid pass *)

(** The two nested loops that fill [nValues], row by row. *)
Definition nValues (w h : nat) (x1 x2 y1 y2 : number) (max : nat)
    : list nat :=
  for_loop 0 h
    (λ r nValues,
       let y := map #0 (of_nat h) y1 y2 (of_nat r) in
       for_loop 0 w
         (λ c nValues,
            let x := map #0 (of_nat w) x1 x2 (of_nat c) in
            nValues ++ [mandel x y max])
         nValues)
    [].

(** ** [toRgb]: the colour palette *)

Definition toRgb (h : number) : number * number * number :=
  let f (n : number) : number :=
    let k := rem (n + h / #60) #6 in
    (#1 - max (min (min k (#4 - k)) #1) #0)%num in
  (f (#5)%num, f (#3)%num, f (#1)%num).

(** ** [createMandelImage] *)

Record ImageData := { width : nat; height : nat; data : list Z }.

(** [ctx.createImageData(w, h)]: a zero-filled RGBA buffer. *)
Definition createImageData (w h : nat) : ImageData :=
  {| width := w; height := h; data := replicate (4 * (w * h)) 0%Z |}.

(** Writing one element of the buffer; a write past the end of a typed
    array is ignored. *)
Definition store (d : list Z) (i : nat) (v : number) : list Z :=
  <[i := to_uint8_clamp v]> d.

Definition createMandelImage (w h : nat) (x1 x2 y1 y2 : number) (max : nat)
    : ImageData :=
  let nValues := nValues w h x1 x2 y1 y2 max in
  let nNorm := normalize nValues max in
  let imgData := createImageData w h in
  let pixels :=
    foldl
      (λ d p,
         let i := p.1 in
         let n := p.2 in
         let ind := (i * 4)%nat in
         let m := (n / of_nat max * #255)%num in
         let '(r, g, b) :=
           if eqb n (of_nat max) then (#0, #0, #0)%num else toRgb m in
         let d := store d (ind + 0) (r * #255)%num in
         let d := store d (ind + 1) (g * #255)%num in
         let d := store d (ind + 2) (b * #255)%num in
         store d (ind + 3) (#255)%num)
      (data imgData)
      (zip (seq 0 (length nNorm)) nNorm) in
  {| width := width imgData; height := height imgData; data := pixels |}.

(** ** [onload]: the viewport and its event handlers *)

Module onload.

(** Constants. *)
Definition w : nat := 1900.
Definition h : nat := 870.
Definition ratio : number := (of_nat w / of_nat h)%num.
Definition max : nat := 500.

(** What the handlers draw on the canvas, most recent first. *)
Inductive drawing : Type :=
  | PutImageData (img : ImageData)
  | StrokeRect (x y w h : number).

(** The variables the closures share, from the first [update()] on (so
    [imageData] is never [null]). *)
Record state : Type := State {
  xRange : number * number;
  yRange : number * number;
  imageData : ImageData;
  mDown : bool;
  start : number * number;
  canvas : list drawing
}.

(** A mouse event, reduced to its position relative to the canvas: the
    handlers read nothing else of it.  The position is a finite number. *)
Record mouse_event : Type := MouseEvent { canvasX : Qc; canvasY : Qc }.

Record key_event : Type := KeyEvent { key : string }.

Definition update (s : state) : state :=
  let '(x1, x2) := xRange s in
  let '(y1, y2) := yRange s in
  State (xRange s) (yRange s)
        (createMandelImage w h x1 x2 y1 y2 max)
        (mDown s) (start s) (canvas s).

Definition redraw (s : state) : state :=
  State (xRange s) (yRange s) (imageData s) (mDown s) (start s)
        (PutImageData (imageData s) :: canvas s).

Definition canvasPos (e : mouse_event) : number * number :=
  (Fin (canvasX e), Fin (canvasY e)).

Definition endPos (s : state) (e : mouse_event) : number * number :=
  let x := (canvasPos e).1 in
  let y := ((start s).2 + (x - (start s).1) / ratio)%num in
  (x, y).

Definition realPos (s : state) (canvasPos : number * number)
    : number * number :=
  let x := canvasPos.1 in
  let y := canvasPos.2 in
  let '(x1, x2) := xRange s in
  let '(y1, y2) := yRange s in
  (map #0 (of_nat w) x1 x2 x, map #0 (of_nat h) y1 y2 y).

Definition mouseDown (e : mouse_event) (s : state) : state :=
  State (xRange s) (yRange s) (imageData s) true (canvasPos e) (canvas s).

Definition mouseMove (e : mouse_event) (s : state) : state :=
  if mDown s then
    let end_ := endPos s e in
    let w := (end_.1 - (start s).1)%num in
    let h := (end_.2 - (start s).2)%num in
    if (w >? #2)%num then
      let s := redraw s in
      State (xRange s) (yRange s) (imageData s) (mDown s) (start s)
            (StrokeRect (start s).1 (start s).2 w h :: canvas s)
    else s
  else s.

Definition mouseUp (e : mouse_event) (s : state) : state :=
  let end_ := endPos s e in
  let w := (end_.1 - (start s).1)%num in
  let s :=
    if (w >? #2)%num then
      let newRealStart := realPos s (start s) in
      let newRealEnd := realPos s end_ in
      State (newRealStart.1, newRealEnd.1) (newRealStart.2, newRealEnd.2)
            (imageData s) (mDown s) (start s) (canvas s)
    else s in
  let s := update s in
  let s := redraw s in
  State (xRange s) (yRange s) (imageData s) false (start s) (canvas s).

Definition zoomOut (r : number * number) : number * number :=
  let d := (r.2 - r.1)%num in
  let mid := ((r.1 + r.2) / #2)%num in
  ((mid - d)%num, (mid + d)%num).

Definition keyDown (e : key_event) (s : state) : state :=
  if bool_decide (key e = "z") then
    let s := State (zoomOut (xRange s)) (yRange s) (imageData s) (mDown s)
                   (start s) (canvas s) in
    let s := State (xRange s) (zoomOut (yRange s)) (imageData s) (mDown s)
                   (start s) (canvas s) in
    let s := update s in
    redraw s
  else s.

(** The state once [onload] has run: the initial ranges, a first image
    computed by [update()] and drawn by [redraw()], no selection in
    progress. *)
Definition init : state :=
  let xRange := (#(-2), #2)%num in
  let yRange := ((#(-2) / ratio)%num, (#2 / ratio)%num) in
  let imageData :=
    createMandelImage w h xRange.1 xRange.2 yRange.1 yRange.2 max in
  State xRange yRange imageData false (#0, #0)%num [PutImageData imageData].

(** The events the registered listeners receive. *)
Inductive event : Type :=
  | MouseDown (e : mouse_event)
  | MouseMove (e : mouse_event)
  | MouseUp (e : mouse_event)
  | KeyDown (e : key_event).

Definition handle (s : state) (ev : event) : state :=
  match ev with
  | MouseDown e => mouseDown e s
  | MouseMove e => mouseMove e s
  | MouseUp e => mouseUp e s
  | KeyDown e => keyDown e s
  end.

(** The events are handled one at a time, in the order they arrive. *)
Definition run (evs : list event) (s : state) : state := foldl handle s evs.

End onload.

(** * Notions used in the statements *)

(** ** Counting *)

(** How often [i] occurs in [ns]. *)
Definition occurrences (i : nat) (ns : list nat) : nat :=
  length (filter (λ n, n = i) ns).

(** [c 0 + ... + c i]. *)
Fixpoint prefix_sum (c : nat → nat) (i : nat) : nat :=
  match i with
  | O => c 0
  | S j => prefix_sum c j + c (S j)
  end.

(** The value [normalize] gives to a count [a] below [max]: the running sum
    up to [a], divided by [div] (the total over [max]) and rounded up. *)
Definition equalized (ns : list nat) (max a : nat) : Z :=
  let sum i := Qc_of_Z (Z.of_nat (prefix_sum (λ k, occurrences k ns) i)) in
  let total := sum (max - 1) in
  let div := (total / Qc_of_Z (Z.of_nat max))%Qc in
  Qceiling (sum a / div)%Qc.

(** Two nested pushing loops, the outer one over [k] rows. *)
Definition grid {A : Type} (g : nat → nat → A) (w k : nat) : list A :=
  for_loop 0 k
    (λ r acc, for_loop 0 w (λ c acc, acc ++ [g r c]) acc) [].

(** ** The viewport *)

Import onload.

(** The events that start a selection. *)
Definition is_mouseDown (ev : event) : bool :=
  match ev with MouseDown _ => true | _ => false end.

(** A range whose two ends are finite and distinct. *)
Definition nonzero_width (r : number * number) : Prop :=
  ∃ a b : Qc, r = (Fin a, Fin b) ∧ a ≠ b.

(** Both ranges have finite, distinct ends, and the recorded start of the
    selection is a finite position. *)
Definition viewport_ok (s : state) : Prop :=
  nonzero_width (xRange s) ∧ nonzero_width (yRange s)
  ∧ ∃ sx sy : Qc, start s = (Fin sx, Fin sy).

(** The value of [ratio], as a rational. *)
Definition ratio_q : Qc := (Qc_of_Z 1900 / Qc_of_Z 870)%Qc.

(** ** The image *)

(** A number between 0 and 1. *)
Definition unit_interval (x : number) : Prop :=
  ∃ v : Qc, x = Fin v ∧ (0 ≤ v ≤ 1)%Qc.

(** The four bytes the [forEach] of [createMandelImage] writes for one
    normalized value [n]. *)
Definition pixel (max : nat) (n : number) : list Z :=
  let m := (n / of_nat max * #255)%num in
  let '(r, g, b) :=
    if eqb n (of_nat max) then (#0, #0, #0)%num else toRgb m in
  [to_uint8_clamp (r * #255); to_uint8_clamp (g * #255);
   to_uint8_clamp (b * #255); to_uint8_clamp (#255)%num].

(** ** The viewport over a run *)

(** The plane region has the proportions of the canvas: its width is
    [ratio] times its height.  (The start of the selection is finite.) *)
Definition aspect_ok (s : state) : Prop :=
  (∃ x1 x2 y1 y2 : Qc,
     xRange s = (Fin x1, Fin x2) ∧ yRange s = (Fin y1, Fin y2)
     ∧ (x2 - x1 = ratio_q * (y2 - y1))%Qc)
  ∧ ∃ sx sy : Qc, start s = (Fin sx, Fin sy).

(** Presses and moves of the mouse. *)
Definition is_press_or_move (ev : event) : bool :=
  match ev with MouseDown _ | MouseMove _ => true | _ => false end.

(** The image most recently put on the canvas. *)
Fixpoint last_put (c : list drawing) : option ImageData :=
  match c with
  | [] => None
  | PutImageData img :: _ => Some img
  | StrokeRect _ _ _ _ :: c => last_put c
  end.

(** The image is that of the current ranges, and it is the last one put on
    the canvas. *)
Definition display_ok (s : state) : Prop :=
  imageData s =
    createMandelImage w h (xRange s).1 (xRange s).2 (yRange s).1 (yRange s).2 max
  ∧ last_put (canvas s) = Some (imageData s).

(** * Properties *)

(** ** The embedding on concrete inputs *)

Example map_midpoint : eqb (map #0 #10 #0 #100 #5) #50 = true.
Proof. by vm_compute. Qed.

Example map_extrapolates : eqb (map #0 #10 #0 #100 #(-5)) #(-50) = true.
Proof. by vm_compute. Qed.

Example mandel_origin : mandel #0 #0 25 = 25.
Proof. by vm_compute. Qed.

Example mandel_on_the_circle : mandel #2 #0 25 = 1.
Proof. by vm_compute. Qed.

(** A grid of three columns and two rows over [-2, 2] x [-2, 2]. *)
Example nValues_3x2 : nValues 3 2 #(-2) #2 #(-2) #2 10 = [0; 0; 0; 10; 10; 3].
Proof. by vm_compute. Qed.

(** Its histogram has three zeros and one three: the zeros are mapped to
    [ceil (3 / (4 / 10)) = 8], and the three to [ceil (4 / (4 / 10)) = 10]. *)
Example normalize_3x2 :
  normalize [0; 0; 0; 10; 10; 3] 10 !! 0 = Some (of_Z 8)
  ∧ normalize [0; 0; 0; 10; 10; 3] 10 !! 5 = Some (of_Z 10)
  ∧ normalize [0; 0; 0; 10; 10; 3] 10 !! 3 = Some (of_Z 10).
Proof. by vm_compute. Qed.

(** A count above [max] reads past the end of [cumul] and comes out as
    [NaN]. *)
Example normalize_above_max : normalize [0; 7] 5 !! 1 = Some NaN.
Proof. by vm_compute. Qed.

Example createMandelImage_3x2 :
  data (createMandelImage 3 2 #(-2) #2 #(-2) #2 10) =
  [0; 153; 255; 255; 0; 153; 255; 255; 0; 153; 255; 255;
   0; 0; 0; 255; 0; 0; 0; 255; 0; 0; 0; 255]%Z.
Proof. by vm_compute. Qed.

(** ** Arithmetic on numbers *)

(** Two concrete rationals with different numerators differ. *)
Ltac Qc_discriminate :=
  let H := fresh in
  intros H; apply (f_equal (λ q : Qc, Qnum (this q))) in H;
  vm_compute in H; discriminate H.

(** [field] on equations that mention the literal [2]. *)
Ltac Qc_field := rewrite ?Z2Qc_inj_2; field; try Qc_discriminate.

Section number_facts.
Implicit Types x y z : number.
Implicit Types a b c : Qc.

Lemma two_neq_0 : Qc_of_Z 2 ≠ 0%Qc.
Proof. Qc_discriminate. Qed.

Lemma div_fin_2 a : (Fin a / #2)%num = Fin (a / Qc_of_Z 2).
Proof.
  unfold div, of_Z. by rewrite bool_decide_eq_false_2 by apply two_neq_0.
Qed.

Lemma div_fin a b : b ≠ 0%Qc → (Fin a / Fin b)%num = Fin (a / b).
Proof. intros Hb. unfold div. by rewrite bool_decide_eq_false_2. Qed.

(** A non-finite operand makes the result of [*] and [+] non-finite. *)
Lemma mul_not_finite_l x y : is_finite x = false → is_finite (x * y) = false.
Proof.
  destruct x as [a| | |], y as [b| | |]; try done; intros _; simpl;
    unfold signed_inf; repeat case_bool_decide; done.
Qed.

Lemma add_not_finite_r x y : is_finite y = false → is_finite (x + y) = false.
Proof. by destruct x, y. Qed.

(** Dividing by the difference of a number with itself never gives a
    finite number: the difference is zero or [NaN]. *)
Lemma div_self_diff_not_finite x z : is_finite (x / (z - z)) = false.
Proof.
  destruct z as [c| | |]; simpl.
  - replace (c + - c)%Qc with 0%Qc by ring.
    destruct x as [a| | |]; simpl; try done;
      unfold signed_inf; repeat case_bool_decide; done.
  - by destruct x.
  - by destruct x.
  - by destruct x.
Qed.

Lemma eqb_eq x y : eqb x y = true → x = y.
Proof.
  destruct x, y; simpl; try done. intros ?%bool_decide_eq_true. by subst.
Qed.
End number_facts.

(** ** [map] *)

Lemma map_degenerate_not_finite s1 t1 t2 s :
  is_finite (map s1 s1 t1 t2 s) = false.
Proof.
  unfold map. apply add_not_finite_r, mul_not_finite_l,
    div_self_diff_not_finite.
Qed.

(** C4, as stated, fails: with equal source endpoints [map] returns
    [Infinity] instead of throwing. *)
Lemma map_degenerate_returns_infinity :
  call_map (#0) (#0) (#0) (#1) (#1) = Returns PInf
  ∧ call_map (#0) (#0) (#0) (#1) (#1) ≠ Throws DegenerateRangeError.
Proof. split; [by vm_compute | done]. Qed.

(** C4, amended: when the source endpoints are equal ([s1 === s2]), [map]
    does not fail; it returns a number that is not finite ([NaN],
    [Infinity] or [-Infinity]). *)
Theorem map_degenerate_returns_non_finite s1 s2 t1 t2 s :
  eqb s1 s2 = true →
  ∃ v, call_map s1 s2 t1 t2 s = Returns v ∧ is_finite v = false.
Proof.
  intros <-%eqb_eq. eexists. split; [done |].
  apply map_degenerate_not_finite.
Qed.

Lemma map_degenerate_returns_non_finite_witness :
  eqb (#7) (#7) = true
  ∧ ∃ v, call_map (#7) (#7) (#0) (#1) (#3) = Returns v ∧ is_finite v = false.
Proof.
  split; [by vm_compute |].
  apply (map_degenerate_returns_non_finite (#7) (#7) (#0) (#1) (#3)).
  by vm_compute.
Defined.

(** ** [mandel] *)

(** The count only grows, by at most the number of iterations left. *)
Lemma mandel_iter_bounds x y left n a b :
  n ≤ mandel_iter x y left n a b ≤ n + left.
Proof.
  revert n a b. induction left as [|left IH]; intros n a b; simpl; [lia |].
  case_match; [lia |].
  match goal with
  | |- context [mandel_iter x y left (S n) ?a' ?b'] =>
      specialize (IH (S n) a' b')
  end.
  lia.
Qed.

(** With the guard of the [while] evaluated [left + 1] times or more, the
    loop returns, and returns what the total version does. *)
Lemma mandel_loop_iter fuel x y max left n a b :
  n + left = max → left < fuel →
  mandel_loop fuel x y max n a b = Some (mandel_iter x y left n a b).
Proof.
  revert left n a b. induction fuel as [|fuel IH]; intros left n a b Hmax Hfuel;
    [lia |].
  simpl. destruct left as [|left]; simpl.
  - rewrite (proj2 (Nat.ltb_ge n max)) by lia. done.
  - rewrite (proj2 (Nat.ltb_lt n max)) by lia.
    case_match; [done |]. apply IH; lia.
Qed.




(** ** Loops that push onto an array *)

Section push_loops.
Context {A : Type}.

(** A loop whose body pushes one element per index appends the image of the
    index range. *)
Lemma for_loop_push (f : nat → A) lo hi (acc : list A) :
  for_loop lo hi (λ i acc, acc ++ [f i]) acc = acc ++ (f <$> seq lo (hi - lo)).
Proof.
  unfold for_loop. generalize (hi - lo) as len. intros len.
  revert lo acc. induction len as [|len IH]; intros lo acc; simpl.
  - by rewrite app_nil_r.
  - rewrite IH. by rewrite <-app_assoc.
Qed.

Lemma grid_S (g : nat → nat → A) w k :
  grid g w (S k) = grid g w k ++ (g k <$> seq 0 w).
Proof.
  unfold grid, for_loop at 1 3. rewrite !Nat.sub_0_r, seq_S, foldl_app.
  simpl. rewrite for_loop_push. by rewrite Nat.sub_0_r.
Qed.

Lemma grid_length (g : nat → nat → A) w k : length (grid g w k) = k * w.
Proof.
  induction k as [|k IH]; [done |].
  rewrite grid_S, length_app, length_fmap, length_seq. lia.
Qed.

Lemma grid_lookup (g : nat → nat → A) w k r c :
  r < k → c < w → grid g w k !! (r * w + c) = Some (g r c).
Proof.
  intros Hr Hc. induction k as [|k IH]; [lia |].
  rewrite grid_S. destruct (decide (r = k)) as [->|Hne].
  - rewrite lookup_app_r by (rewrite grid_length; lia).
    rewrite grid_length, list_lookup_fmap, lookup_seq_lt by lia.
    simpl. do 2 f_equal. lia.
  - rewrite lookup_app_l by (rewrite grid_length; nia).
    apply IH. lia.
Qed.
End push_loops.

(** ** [createMandelImage] *)

Lemma nValues_grid w h x1 x2 y1 y2 max :
  nValues w h x1 x2 y1 y2 max =
  grid (λ r c, mandel (map #0 (of_nat w) x1 x2 (of_nat c))
                      (map #0 (of_nat h) y1 y2 (of_nat r)) max) w h.
Proof. done. Qed.

(** C5: [createMandelImage] makes one full pass over the grid in row-major
    order: the count sequence has [w * h] entries and the entry at index
    [r * w + c] is the count of the plane point of row [r], column [c]. *)
Theorem createMandelImage_row_major w h x1 x2 y1 y2 max r c :
  r < h → c < w →
  length (nValues w h x1 x2 y1 y2 max) = w * h
  ∧ nValues w h x1 x2 y1 y2 max !! (r * w + c) =
    Some (mandel (map #0 (of_nat w) x1 x2 (of_nat c))
                 (map #0 (of_nat h) y1 y2 (of_nat r)) max).
Proof.
  intros Hr Hc. rewrite nValues_grid. split.
  - rewrite grid_length. lia.
  - by rewrite grid_lookup.
Qed.

Lemma createMandelImage_row_major_witness :
  1 < 2 ∧ 2 < 3
  ∧ length (nValues 3 2 #(-2) #2 #(-2) #2 10) = 3 * 2
  ∧ nValues 3 2 #(-2) #2 #(-2) #2 10 !! (1 * 3 + 2) =
    Some (mandel (map #0 (of_nat 3) #(-2) #2 (of_nat 2))
                 (map #0 (of_nat 2) #(-2) #2 (of_nat 1)) 10).
Proof.
  split; [lia |]. split; [lia |].
  apply (createMandelImage_row_major 3 2 #(-2) #2 #(-2) #2 10 1 2); lia.
Defined.

(** ** [normalize]: shape of the result *)

Lemma normalize_length ns max : length (normalize ns max) = length ns.
Proof. unfold normalize. by rewrite length_fmap. Qed.

(** An entry equal to [max] is mapped to [max], whatever the histogram. *)
Lemma normalize_lookup_max ns max i :
  ns !! i = Some max → normalize ns max !! i = Some (of_nat max).
Proof.
  intros Hi. unfold normalize. rewrite list_lookup_fmap, Hi. simpl.
  by rewrite decide_True.
Qed.

(** C7: [normalize] keeps the length and the positions, and an entry equal
    to [max] yields [max] at the same position. *)
Theorem normalize_keeps_shape_and_interior ns max :
  length (normalize ns max) = length ns
  ∧ ∀ i, ns !! i = Some max → normalize ns max !! i = Some (of_nat max).
Proof. split; [apply normalize_length | apply normalize_lookup_max]. Qed.

Lemma normalize_keeps_shape_and_interior_witness :
  length (normalize [0; 3; 1; 3] 3) = length [0; 3; 1; 3]
  ∧ normalize [0; 3; 1; 3] 3 !! 1 = Some (of_nat 3).
Proof.
  destruct (normalize_keeps_shape_and_interior [0; 3; 1; 3] 3) as [Hlen Hmax].
  split; [exact Hlen |]. by apply Hmax.
Defined.

Lemma fmap_constant {A B} (f : A → B) (v : B) (l : list A) :
  Forall (λ x, f x = v) l → f <$> l = replicate (length l) v.
Proof.
  induction 1 as [|x l Hx _ IH]; [done |]. rewrite fmap_cons, Hx, IH. done.
Qed.

(** C2: when every entry equals [max] (no pixel escaped, so the histogram
    is empty and [div] is zero), [normalize] does not fail and returns a
    sequence of the same length whose entries all equal [max]. *)
Theorem normalize_all_interior ns max :
  ns ≠ [] → Forall (λ n, n = max) ns →
  call_normalize ns max = Returns (replicate (length ns) (of_nat max)).
Proof.
  intros _ Hall. unfold call_normalize, normalize. f_equal.
  apply fmap_constant. eapply Forall_impl; [exact Hall |].
  intros n ->. simpl. by rewrite decide_True.
Qed.

Lemma normalize_all_interior_witness :
  [3; 3; 3] ≠ [] ∧ Forall (λ n, n = 3) [3; 3; 3]
  ∧ call_normalize [3; 3; 3] 3 = Returns [of_nat 3; of_nat 3; of_nat 3].
Proof.
  assert (Hne : [3; 3; 3] ≠ ([] : list nat)) by done.
  assert (Hall : Forall (λ n, n = 3) [3; 3; 3]) by (repeat constructor).
  split; [exact Hne |]. split; [exact Hall |].
  exact (normalize_all_interior [3; 3; 3] 3 Hne Hall).
Defined.

(** ** [zoomOut] *)

Lemma zoomOut_fin (a b : Qc) :
  onload.zoomOut (Fin a, Fin b) =
  (Fin ((a + b) / Qc_of_Z 2 - (b - a)), Fin ((a + b) / Qc_of_Z 2 + (b - a))).
Proof.
  unfold onload.zoomOut. cbn [fst snd].
  change (Fin a + Fin b)%num with (Fin (a + b)). by rewrite div_fin_2.
Qed.


(** ** The event handlers *)

(** The image is never needed to reason about the viewport. *)
Arguments createMandelImage : simpl never.

(** *** What each handler does to the shared variables *)

Lemma update_vars s :
  xRange (update s) = xRange s ∧ yRange (update s) = yRange s
  ∧ start (update s) = start s.
Proof. unfold update. by destruct (xRange s), (yRange s). Qed.

Lemma mouseDown_vars e s :
  xRange (mouseDown e s) = xRange s ∧ yRange (mouseDown e s) = yRange s
  ∧ start (mouseDown e s) = canvasPos e.
Proof. done. Qed.

Lemma mouseMove_vars e s :
  xRange (mouseMove e s) = xRange s ∧ yRange (mouseMove e s) = yRange s
  ∧ start (mouseMove e s) = start s.
Proof. unfold mouseMove. by repeat case_match. Qed.

(** [mouseUp] keeps [start]; it replaces the ranges when the selection is
    more than two pixels wide, reading the ranges current at that time. *)
Lemma mouseUp_start e s : start (mouseUp e s) = start s.
Proof.
  unfold mouseUp. cbn [start redraw].
  case_match; by rewrite (proj2 (proj2 (update_vars _))).
Qed.

Lemma mouseUp_ranges_wide e s :
  ((endPos s e).1 - (start s).1 >? #2)%num = true →
  xRange (mouseUp e s) =
    ((realPos s (start s)).1, (realPos s (endPos s e)).1)
  ∧ yRange (mouseUp e s) =
    ((realPos s (start s)).2, (realPos s (endPos s e)).2).
Proof.
  intros Hw. unfold mouseUp. rewrite Hw. cbn [xRange yRange redraw].
  by rewrite (proj1 (update_vars _)), (proj1 (proj2 (update_vars _))).
Qed.

Lemma mouseUp_ranges_narrow e s :
  ((endPos s e).1 - (start s).1 >? #2)%num = false →
  xRange (mouseUp e s) = xRange s ∧ yRange (mouseUp e s) = yRange s.
Proof.
  intros Hw. unfold mouseUp. rewrite Hw. cbn [xRange yRange redraw].
  by rewrite (proj1 (update_vars _)), (proj1 (proj2 (update_vars _))).
Qed.

Lemma keyDown_z_vars e s :
  key e = "z" →
  xRange (keyDown e s) = zoomOut (xRange s)
  ∧ yRange (keyDown e s) = zoomOut (yRange s)
  ∧ start (keyDown e s) = start s.
Proof.
  intros Hz. unfold keyDown. rewrite bool_decide_eq_true_2 by done.
  cbn [xRange yRange start redraw].
  by rewrite (proj1 (update_vars _)), (proj1 (proj2 (update_vars _))),
    (proj2 (proj2 (update_vars _))).
Qed.

Lemma keyDown_other_vars e s : key e ≠ "z" → keyDown e s = s.
Proof. intros Hz. unfold keyDown. by rewrite bool_decide_eq_false_2. Qed.

Lemma keyDown_start e s : start (keyDown e s) = start s.
Proof.
  destruct (decide (key e = "z")) as [Hz|Hz].
  - apply keyDown_z_vars, Hz.
  - by rewrite keyDown_other_vars.
Qed.

(** Only [mouseDown] moves the start of the selection. *)
Lemma run_start evs s :
  Forall (λ ev, is_mouseDown ev = false) evs → start (run evs s) = start s.
Proof.
  intros Hevs. revert s. unfold run.
  induction Hevs as [|ev evs Hev _ IH]; intros s; [done |].
  simpl. rewrite IH. destruct ev as [e|e|e|e]; simpl; [done | | |].
  - apply mouseMove_vars.
  - apply mouseUp_start.
  - apply keyDown_start.
Qed.

(** *** The selection gesture *)

(** C3, as stated, fails: press at (10, 10), press [z], release at x = 50.
    The selection is 40 pixels wide, and the new x range is not the one
    obtained from the bounds in effect when the button was pressed. *)
Lemma gesture_after_zoom_ignores_start_bounds :
  let p := MouseEvent (Qc_of_Z 10) (Qc_of_Z 10) in
  let q := MouseEvent (Qc_of_Z 50) (Qc_of_Z 10) in
  let s1 := mouseDown p init in
  let s2 := run [KeyDown (KeyEvent "z")] s1 in
  let s3 := mouseUp q s2 in
  ((endPos s2 q).1 - (start s2).1 >? #2)%num = true
  ∧ xRange s3 ≠ ((realPos s1 (start s1)).1, (realPos s1 (endPos s2 q)).1).
Proof.
  intros p q s1 s2 s3. split; [by lazy |].
  intros H.
  apply (f_equal (λ r : number * number,
                    match r.1 with Fin x => Qnum (this x) | _ => 0%Z end))
    in H.
  lazy in H. discriminate H.
Qed.

(** C3, amended: after a press at [p], any events other than a press, and a
    release at [q] more than two pixels to the right of [p], the new ranges
    are the two inversions of the selection corners computed with the
    ranges current at the release (those of the state [s2] the release
    finds), not with the ranges in effect at the press. *)
Theorem gesture_uses_bounds_at_release s0 p evs q :
  Forall (λ ev, is_mouseDown ev = false) evs →
  (Qc_of_Z 2 < canvasX q - canvasX p)%Qc →
  let s2 := run evs (mouseDown p s0) in
  let corner1 := canvasPos p in
  let corner2 :=
    (Fin (canvasX q),
     (Fin (canvasY p) + (Fin (canvasX q) - Fin (canvasX p)) / ratio)%num) in
  xRange (mouseUp q s2) = ((realPos s2 corner1).1, (realPos s2 corner2).1)
  ∧ yRange (mouseUp q s2) = ((realPos s2 corner1).2, (realPos s2 corner2).2).
Proof.
  intros Hevs Hwide s2 corner1 corner2.
  assert (Hstart : start s2 = corner1) by (unfold s2; by rewrite run_start).
  assert (Hend : endPos s2 q = corner2) by (unfold endPos; by rewrite Hstart).
  destruct (mouseUp_ranges_wide q s2) as [Hx Hy].
  { rewrite Hend, Hstart. simpl. by apply bool_decide_eq_true_2. }
  by rewrite Hx, Hy, Hstart, Hend.
Qed.

Lemma gesture_uses_bounds_at_release_witness :
  let p := MouseEvent (Qc_of_Z 10) (Qc_of_Z 10) in
  let q := MouseEvent (Qc_of_Z 50) (Qc_of_Z 10) in
  let evs := [KeyDown (KeyEvent "z")] in
  let s2 := run evs (mouseDown p init) in
  Forall (λ ev, is_mouseDown ev = false) evs
  ∧ (Qc_of_Z 2 < canvasX q - canvasX p)%Qc
  ∧ xRange (mouseUp q s2) =
    ((realPos s2 (canvasPos p)).1,
     (realPos s2 (Fin (canvasX q),
                  (Fin (canvasY p)
                   + (Fin (canvasX q) - Fin (canvasX p)) / ratio)%num)).1).
Proof.
  intros p q evs s2.
  assert (Hevs : Forall (λ ev, is_mouseDown ev = false) evs)
    by (repeat constructor).
  assert (Hwide : (Qc_of_Z 2 < canvasX q - canvasX p)%Qc) by (by vm_compute).
  split; [exact Hevs |]. split; [exact Hwide |].
  exact (proj1 (gesture_uses_bounds_at_release init p evs q Hevs Hwide)).
Defined.

(** *** Ranges of nonzero width *)

Lemma Qc_sub_neq_0 (a b : Qc) : a ≠ b → (a - b)%Qc ≠ 0%Qc.
Proof.
  intros Hne Heq. apply Hne.
  replace a with (a - b + b)%Qc by ring. rewrite Heq. ring.
Qed.

(** On finite numbers with distinct source endpoints [map] is the affine
    function of the specification. *)
Lemma map_fin (s1 s2 t1 t2 s : Qc) :
  s1 ≠ s2 →
  map (Fin s1) (Fin s2) (Fin t1) (Fin t2) (Fin s) =
  Fin (t1 + (s - s1) / (s2 - s1) * (t2 - t1)).
Proof.
  intros Hs. unfold map. cbn [sub neg add].
  rewrite div_fin by (apply Qc_sub_neq_0; congruence). done.
Qed.

(** It is then injective when the target endpoints differ too. *)
Lemma map_fin_inj (s1 s2 t1 t2 s s' : Qc) :
  s1 ≠ s2 → t1 ≠ t2 →
  (t1 + (s - s1) / (s2 - s1) * (t2 - t1))%Qc =
  (t1 + (s' - s1) / (s2 - s1) * (t2 - t1))%Qc →
  s = s'.
Proof.
  intros Hs Ht Heq.
  assert (Hd : (s2 - s1)%Qc ≠ 0%Qc) by (apply Qc_sub_neq_0; congruence).
  assert (He : (t2 - t1)%Qc ≠ 0%Qc) by (apply Qc_sub_neq_0; congruence).
  set (f := λ u : Qc, ((u - t1) * (s2 - s1) / (t2 - t1) + s1)%Qc).
  assert (Hf : ∀ u, f (t1 + (u - s1) / (s2 - s1) * (t2 - t1))%Qc = u).
  { intros u. unfold f. by field. }
  rewrite <-(Hf s), <-(Hf s'). by rewrite Heq.
Qed.

Lemma nonzero_width_neq r : nonzero_width r → r.1 ≠ r.2.
Proof. intros (a & b & -> & Hne). simpl. congruence. Qed.

Lemma zoomOut_nonzero_width r : nonzero_width r → nonzero_width (zoomOut r).
Proof.
  intros (a & b & -> & Hne). rewrite zoomOut_fin. do 2 eexists.
  split; [done |]. intros Heq. apply Hne.
  set (m := ((a + b) / Qc_of_Z 2)%Qc) in *.
  assert (Hd : (b - a)%Qc = 0%Qc).
  { replace (b - a)%Qc with ((m + (b - a) - (m - (b - a))) / Qc_of_Z 2)%Qc
      by Qc_field.
    rewrite <-Heq. Qc_field. }
  replace b with (b - a + a)%Qc by ring. rewrite Hd. ring.
Qed.

Lemma realPos_nonzero_width s (p q : Qc * Qc) :
  nonzero_width (xRange s) → nonzero_width (yRange s) →
  p.1 ≠ q.1 → p.2 ≠ q.2 →
  nonzero_width ((realPos s (Fin p.1, Fin p.2)).1,
                 (realPos s (Fin q.1, Fin q.2)).1)
  ∧ nonzero_width ((realPos s (Fin p.1, Fin p.2)).2,
                   (realPos s (Fin q.1, Fin q.2)).2).
Proof.
  intros (x1 & x2 & Hx & Hxne) (y1 & y2 & Hy & Hyne) H1 H2.
  unfold realPos. rewrite Hx, Hy. cbn [fst snd].
  assert (Hw : Qc_of_Z 0 ≠ Qc_of_Z (Z.of_nat w)) by Qc_discriminate.
  assert (Hh : Qc_of_Z 0 ≠ Qc_of_Z (Z.of_nat h)) by Qc_discriminate.
  unfold of_nat, of_Z. rewrite !map_fin by done.
  split; do 2 eexists; (split; [done |]); intros Heq.
  - by apply H1, (map_fin_inj _ _ _ _ _ _ Hw Hxne).
  - by apply H2, (map_fin_inj _ _ _ _ _ _ Hh Hyne).
Qed.

(** *** The invariant of the viewport *)

Lemma ratio_q_neq_0 : ratio_q ≠ 0%Qc.
Proof. Qc_discriminate. Qed.

Lemma ratio_fin : ratio = Fin ratio_q.
Proof. unfold ratio, of_nat, of_Z. rewrite div_fin; [done | Qc_discriminate]. Qed.

Lemma init_ok : viewport_ok init.
Proof.
  split; [| split].
  - exists (Qc_of_Z (-2)), (Qc_of_Z 2). split; [done | Qc_discriminate].
  - exists (Qc_of_Z (-2) / ratio_q)%Qc, (Qc_of_Z 2 / ratio_q)%Qc. split.
    + cbn [init yRange]. rewrite ratio_fin. unfold of_Z.
      by rewrite !div_fin by apply ratio_q_neq_0.
    + Qc_discriminate.
  - by exists (Qc_of_Z 0), (Qc_of_Z 0).
Qed.

Lemma mouseDown_ok e s : viewport_ok s → viewport_ok (mouseDown e s).
Proof.
  intros (Hx & Hy & _). split; [done | split; [done |]].
  by exists (canvasX e), (canvasY e).
Qed.

Lemma mouseMove_ok e s : viewport_ok s → viewport_ok (mouseMove e s).
Proof.
  intros Hok. destruct (mouseMove_vars e s) as (Hx & Hy & Hs).
  unfold viewport_ok. by rewrite Hx, Hy, Hs.
Qed.

Lemma keyDown_ok e s : viewport_ok s → viewport_ok (keyDown e s).
Proof.
  intros (Hx & Hy & Hs). destruct (decide (key e = "z")) as [Hz|Hz].
  - destruct (keyDown_z_vars e s Hz) as (Hx' & Hy' & Hs').
    unfold viewport_ok. rewrite Hx', Hy', Hs'.
    auto using zoomOut_nonzero_width.
  - by rewrite keyDown_other_vars.
Qed.

(** The guard [w > 2] of [mouseUp] is what keeps the new ranges from being
    degenerate: the selection corners differ in both coordinates. *)
Lemma mouseUp_ok e s : viewport_ok s → viewport_ok (mouseUp e s).
Proof.
  intros (Hx & Hy & sx & sy & Hs).
  assert (Hstart : ∃ sx sy : Qc, start (mouseUp e s) = (Fin sx, Fin sy))
    by (rewrite mouseUp_start; eauto).
  assert (Hend : endPos s e =
                 (Fin (canvasX e), Fin (sy + (canvasX e - sx) / ratio_q))).
  { unfold endPos. rewrite Hs, ratio_fin. cbn [canvasPos fst snd sub neg add].
    by rewrite div_fin by apply ratio_q_neq_0. }
  destruct (((endPos s e).1 - (start s).1 >? #2)%num) eqn:Hw.
  - destruct (mouseUp_ranges_wide e s Hw) as [Hx' Hy'].
    rewrite Hend, Hs in Hw. cbn [fst snd sub neg add gt lt of_Z] in Hw.
    apply bool_decide_eq_true_1 in Hw.
    assert (Hne : canvasX e ≠ sx).
    { intros Heq. rewrite Heq, Qcplus_opp_r in Hw.
      apply Qclt_not_le in Hw. apply Hw. by vm_compute. }
    assert (Hne' : sy ≠ (sy + (canvasX e - sx) / ratio_q)%Qc).
    { intros Heq. apply Hne.
      pose proof ratio_q_neq_0 as Hr.
      replace (canvasX e) with
        ((sy + (canvasX e - sx) / ratio_q - sy) * ratio_q + sx)%Qc
        by (by field).
      rewrite <-Heq. ring. }
    destruct (realPos_nonzero_width s (sx, sy)
                (canvasX e, (sy + (canvasX e - sx) / ratio_q)%Qc))
      as [Hx'' Hy'']; [done | done | by cbn | by cbn |].
    cbn [fst snd] in Hx'', Hy''. rewrite Hend, Hs in Hx', Hy'.
    unfold viewport_ok. by rewrite Hx', Hy'.
  - destruct (mouseUp_ranges_narrow e s Hw) as [Hx' Hy'].
    unfold viewport_ok. by rewrite Hx', Hy'.
Qed.

Lemma handle_ok s ev : viewport_ok s → viewport_ok (handle s ev).
Proof.
  destruct ev; simpl;
    auto using mouseDown_ok, mouseMove_ok, mouseUp_ok, keyDown_ok.
Qed.


(** ** [normalize]: the histogram and its running sums *)

Lemma occurrences_snoc i ns n :
  occurrences i (ns ++ [n]) =
  occurrences i ns + (if decide (n = i) then 1 else 0).
Proof.
  unfold occurrences. rewrite filter_app, length_app. f_equal.
  rewrite filter_cons, filter_nil. by case_decide.
Qed.

Lemma occurrences_pos i ns : i ∈ ns → 0 < occurrences i ns.
Proof.
  intros Hin. unfold occurrences.
  assert (Hin' : i ∈ filter (λ n, n = i) ns) by (by apply list_elem_of_filter).
  destruct (filter (λ n, n = i) ns); [by apply not_elem_of_nil in Hin' |].
  simpl. lia.
Qed.

Lemma prefix_sum_mono c i j : i ≤ j → prefix_sum c i ≤ prefix_sum c j.
Proof. induction 1; simpl; lia. Qed.

Lemma prefix_sum_ge c i : c i ≤ prefix_sum c i.
Proof. destruct i; simpl; lia. Qed.

Lemma of_nat_succ k : (of_nat k + #1)%num = of_nat (S k).
Proof.
  unfold of_nat, of_Z. cbn [add]. f_equal.
  rewrite <-Z2Qc_inj_add. f_equal. lia.
Qed.

Lemma of_nat_add j k : (of_nat j + of_nat k)%num = of_nat (j + k).
Proof.
  unfold of_nat, of_Z. cbn [add]. f_equal.
  rewrite <-Z2Qc_inj_add. f_equal. lia.
Qed.

Lemma get_lookup (a : list number) i v : a !! i = Some v → get a i = v.
Proof. unfold get. by intros ->. Qed.

Lemma set_in_range (a : list number) i v :
  i < length a → set a i v = <[i := v]> a.
Proof. intros Hi. unfold set. by rewrite decide_True. Qed.

Lemma for_loop_S {S : Type} lo hi (body : nat → S → S) (s : S) :
  lo ≤ hi → for_loop lo (Datatypes.S hi) body s = body hi (for_loop lo hi body s).
Proof.
  intros Hle. unfold for_loop.
  replace (Datatypes.S hi - lo) with (Datatypes.S (hi - lo)) by lia.
  rewrite seq_S, foldl_snoc. f_equal. lia.
Qed.

(** The histogram has one bucket per count below [max], holding the number
    of occurrences of that count. *)
Lemma histogram_spec ns max :
  length (histogram ns max) = max
  ∧ ∀ i, i < max →
      histogram ns max !! i = Some (of_nat (occurrences i ns)).
Proof.
  unfold histogram. induction ns as [|n ns [IHlen IH]] using rev_ind.
  - rewrite filter_nil. cbn [foldl].
    split; [by rewrite length_replicate |].
    intros i Hi. by rewrite lookup_replicate_2.
  - rewrite filter_app, foldl_app, filter_cons, filter_nil.
    case_decide as Hn; simpl.
    + rewrite set_in_range by lia. split; [by rewrite length_insert |].
      intros i Hi. rewrite occurrences_snoc.
      destruct (decide (n = i)) as [->|Hne].
      * rewrite list_lookup_insert_eq by lia.
        rewrite (get_lookup _ _ _ (IH i Hi)), of_nat_succ.
        do 2 f_equal. lia.
      * rewrite list_lookup_insert_ne by done. rewrite IH by done.
        do 2 f_equal. lia.
    + split; [done |]. intros i Hi. rewrite occurrences_snoc.
      rewrite decide_False by lia. rewrite IH by done. do 2 f_equal. lia.
Qed.

(** The running sums of an array of counts. *)
Lemma cumulative_spec hist max (c : nat → nat) :
  0 < max → length hist = max →
  (∀ i, i < max → hist !! i = Some (of_nat (c i))) →
  length (cumulative hist max) = max
  ∧ ∀ i, i < max →
      cumulative hist max !! i = Some (of_nat (prefix_sum c i)).
Proof.
  intros Hmax Hlen Hhist. unfold cumulative.
  set (body := λ (i : nat) (cumul : list number),
                 set cumul i (get cumul (i - 1) + get hist i)%num).
  set (cumul0 := set (replicate max (#0)%num) 0 (get hist 0)).
  assert (Hk : ∀ k, k < max →
            length (for_loop 1 (S k) body cumul0) = max
            ∧ ∀ i, i ≤ k →
                for_loop 1 (S k) body cumul0 !! i
                = Some (of_nat (prefix_sum c i))).
  { induction k as [|k IHk]; intros Hlt.
    - change (for_loop 1 1 body cumul0) with cumul0. unfold cumul0.
      rewrite set_in_range by (rewrite length_replicate; lia).
      split; [by rewrite length_insert, length_replicate |].
      intros i Hi. replace i with 0 by lia.
      rewrite list_lookup_insert_eq by (rewrite length_replicate; lia).
      by rewrite (get_lookup _ _ _ (Hhist 0 Hmax)).
    - destruct IHk as [IHlen IH]; [lia |].
      rewrite for_loop_S by lia.
      set (prev := for_loop 1 (S k) body cumul0) in *. unfold body.
      rewrite set_in_range by lia. split; [by rewrite length_insert |].
      intros i Hi. destruct (decide (i = S k)) as [->|Hne].
      + rewrite list_lookup_insert_eq by lia.
        replace (S k - 1) with k by lia.
        rewrite (get_lookup _ _ _ (IH k (Nat.le_refl k))).
        rewrite (get_lookup _ _ _ (Hhist (S k) Hlt)).
        by rewrite of_nat_add.
      + rewrite list_lookup_insert_ne by done. apply IH. lia. }
  destruct (Hk (max - 1)) as [Hlen' Hlook]; [lia |].
  replace (S (max - 1)) with max in * by lia.
  split; [done |]. intros i Hi. apply Hlook. lia.
Qed.

(** ** [normalize]: monotonicity *)

Lemma Qc_of_nat_pos (n : nat) : 0 < n → (0 < Qc_of_Z (Z.of_nat n))%Qc.
Proof.
  intros Hn. rewrite <-Z2Qc_inj_0.
  apply (proj1 (Z2Qc_inj_lt 0 (Z.of_nat n))). lia.
Qed.

Lemma Qc_of_nat_le (m n : nat) :
  m ≤ n → (Qc_of_Z (Z.of_nat m) ≤ Qc_of_Z (Z.of_nat n))%Qc.
Proof.
  intros Hmn. apply (proj1 (Z2Qc_inj_le (Z.of_nat m) (Z.of_nat n))). lia.
Qed.

Lemma Qcdiv_pos (a b : Qc) : (0 < a)%Qc → (0 < b)%Qc → (0 < a / b)%Qc.
Proof. intros Ha Hb. apply Qcmult_pos_pos; [done | by apply Qcinv_pos]. Qed.

Lemma Qcdiv_le_mono (a b d : Qc) :
  (0 < d)%Qc → (a ≤ b)%Qc → (a / d ≤ b / d)%Qc.
Proof.
  intros Hd Hab. apply Qcmult_le_mono_nonneg_r; [| done].
  by apply Qclt_le_weak, Qcinv_pos.
Qed.

Lemma normalize_lookup_below ns max i a :
  ns !! i = Some a → a < max →
  normalize ns max !! i = Some (of_Z (equalized ns max a)).
Proof.
  intros Hi Ha. set (c := λ k, occurrences k ns).
  destruct (histogram_spec ns max) as [Hlen Hhist].
  destruct (cumulative_spec (histogram ns max) max c) as [Hclen Hcumul];
    [lia | done | done |].
  assert (Hin : 0 < c a) by (by eapply occurrences_pos, list_elem_of_lookup_2).
  assert (Htot : 0 < prefix_sum c (max - 1)).
  { pose proof (prefix_sum_ge c a).
    pose proof (prefix_sum_mono c a (max - 1)). lia. }
  unfold normalize. rewrite list_lookup_fmap, Hi. cbn [fmap option_fmap option_map].
  rewrite decide_False by lia. rewrite Hclen.
  rewrite (get_lookup _ _ _ (Hcumul a Ha)).
  rewrite (get_lookup _ _ _ (Hcumul (max - 1) ltac:(lia))).
  unfold of_nat, of_Z.
  rewrite (div_fin _ (Qc_of_Z (Z.of_nat max)))
    by (apply not_eq_sym, Qclt_not_eq, Qc_of_nat_pos; lia).
  rewrite div_fin
    by (apply not_eq_sym, Qclt_not_eq, Qcdiv_pos; apply Qc_of_nat_pos; lia).
  done.
Qed.

Lemma equalized_mono ns max a b :
  a ∈ ns → a ≤ b → b < max → (equalized ns max a ≤ equalized ns max b)%Z.
Proof.
  intros Hin Hab Hb. unfold equalized. set (c := λ k, occurrences k ns).
  assert (Htot : 0 < prefix_sum c (max - 1)).
  { pose proof (occurrences_pos a ns Hin). pose proof (prefix_sum_ge c a).
    pose proof (prefix_sum_mono c a (max - 1)). unfold c in *. lia. }
  apply Qceiling_resp_le.
  apply (Qcdiv_le_mono _ _ _).
  - apply Qcdiv_pos; apply Qc_of_nat_pos; lia.
  - by apply Qc_of_nat_le, prefix_sum_mono.
Qed.

(** C1: [normalize] is monotonic on escaping counts: if [a ≤ b < max] both
    occur in [ns], the output at an entry equal to [a] is [<=] the output
    at an entry equal to [b]. *)
Theorem normalize_monotonic ns max i j a b :
  ns !! i = Some a → ns !! j = Some b → a ≤ b → b < max →
  ∃ va vb, normalize ns max !! i = Some va
           ∧ normalize ns max !! j = Some vb
           ∧ (va <=? vb)%num = true.
Proof.
  intros Hi Hj Hab Hb.
  exists (of_Z (equalized ns max a)), (of_Z (equalized ns max b)).
  split; [apply normalize_lookup_below; [done | lia] |].
  split; [by apply normalize_lookup_below |].
  cbn [le of_Z]. apply bool_decide_eq_true_2.
  apply (proj1 (Z2Qc_inj_le _ _)), equalized_mono;
    [by eapply list_elem_of_lookup_2 | done | done].
Qed.

Lemma normalize_monotonic_witness :
  ∃ va vb, normalize [0; 1; 1; 3; 5; 5; 2] 5 !! 0 = Some va
           ∧ normalize [0; 1; 1; 3; 5; 5; 2] 5 !! 3 = Some vb
           ∧ (va <=? vb)%num = true.
Proof.
  apply (normalize_monotonic [0; 1; 1; 3; 5; 5; 2] 5 0 3 0 3);
    [reflexivity | reflexivity | lia | lia].
Defined.

(** * Further properties of the code *)

(** ** [map] on finite numbers *)







(** ** [mandel] *)

Lemma mandel_iter_origin left n (a b : Qc) :
  a = 0%Qc → b = 0%Qc →
  mandel_iter (Fin 0%Qc) (Fin 0%Qc) left n (Fin a) (Fin b) = n + left.
Proof.
  revert n a b. induction left as [|left IH]; intros n a b -> ->; [simpl; lia |].
  cbn [mandel_iter mul add gt lt of_Z].
  rewrite bool_decide_eq_false_2.
  - cbn [sub neg add mul]. rewrite IH.
    + lia.
    + ring.
    + rewrite Z2Qc_inj_2. ring.
  - apply Qcle_not_lt. by vm_compute.
Qed.


Lemma mandel_iter_truncate x y left left' n a b :
  left ≤ left' →
  mandel_iter x y left n a b =
  Nat.min (n + left) (mandel_iter x y left' n a b).
Proof.
  revert left' n a b. induction left as [|left IH]; intros left' n a b Hle.
  - pose proof (mandel_iter_bounds x y left' n a b). simpl. lia.
  - destruct left' as [|left']; [lia |]. simpl. case_match; [lia |].
    rewrite (IH left') by lia. f_equal. lia.
Qed.



Lemma mandel_iter_nan_a x y left n b :
  mandel_iter x y left n NaN b = n + left.
Proof.
  revert n b. induction left as [|left IH]; intros n b; [simpl; lia |].
  cbn [mandel_iter mul add sub neg gt lt of_Z]. rewrite IH. lia.
Qed.

Lemma mandel_iter_nan_b x y left n a :
  y = NaN → mandel_iter x y left n a NaN = n + left.
Proof.
  intros ->. revert n a. induction left as [|left IH]; intros n a; [simpl; lia |].
  cbn [mandel_iter].
  replace (a * a + NaN * NaN)%num with NaN by (by destruct (a * a)%num).
  replace (#2 * a * NaN + NaN)%num with NaN by (by destruct (#2 * a)%num).
  cbn [gt lt of_Z]. rewrite IH. lia.
Qed.


(** ** [normalize]: what the three arrays hold *)

Lemma filter_iff_Forall {A} (P Q : A → Prop)
    `{!∀ x, Decision (P x), !∀ x, Decision (Q x)} (l : list A) :
  Forall (λ x, P x ↔ Q x) l → filter P l = filter Q l.
Proof.
  induction 1 as [|x l Hx _ IH]; [done |].
  rewrite !filter_cons, IH. repeat case_decide; tauto.
Qed.

Lemma count_le_S (ns : list nat) a :
  length (filter (λ n, n ≤ S a) ns) =
  length (filter (λ n, n ≤ a) ns) + occurrences (S a) ns.
Proof.
  unfold occurrences. induction ns as [|n ns IH]; [done |].
  rewrite !filter_cons. repeat case_decide; simpl; lia.
Qed.

(** The running sum of the occurrence counts up to [a] is the number of
    entries that are at most [a]. *)
Lemma prefix_sum_occurrences ns a :
  prefix_sum (λ k, occurrences k ns) a = length (filter (λ n, n ≤ a) ns).
Proof.
  induction a as [|a IH]; simpl.
  - unfold occurrences. f_equal. apply list_filter_iff. lia.
  - by rewrite IH, count_le_S.
Qed.

Lemma prefix_sum_escaping ns max :
  0 < max →
  prefix_sum (λ k, occurrences k ns) (max - 1) =
  length (filter (λ n, n < max) ns).
Proof.
  intros Hmax. rewrite prefix_sum_occurrences. f_equal.
  apply list_filter_iff. lia.
Qed.

(** X7: the histogram has one bucket per count below [max]; bucket [i]
    holds the number of entries equal to [i], so entries equal to [max] or
    above are not counted anywhere. *)
Theorem histogram_counts ns max i :
  i < max →
  length (histogram ns max) = max
  ∧ histogram ns max !! i = Some (of_nat (length (filter (λ n, n = i) ns))).
Proof.
  intros Hi. destruct (histogram_spec ns max) as [Hlen Hhist]. split; [done |].
  by apply Hhist.
Qed.

Lemma histogram_counts_witness :
  1 < 5
  ∧ length (histogram [0; 1; 1; 3; 5; 5; 2; 9] 5) = 5
  ∧ histogram [0; 1; 1; 3; 5; 5; 2; 9] 5 !! 1 = Some (of_nat 2).
Proof.
  split; [lia |]. apply (histogram_counts [0; 1; 1; 3; 5; 5; 2; 9] 5 1). lia.
Defined.

(** X8: the cumulative array built from the histogram holds, at index [i],
    the number of entries that are at most [i]. *)
Theorem cumulative_counts ns max i :
  i < max →
  length (cumulative (histogram ns max) max) = max
  ∧ cumulative (histogram ns max) max !! i =
    Some (of_nat (length (filter (λ n, n ≤ i) ns))).
Proof.
  intros Hi. destruct (histogram_spec ns max) as [Hlen Hhist].
  destruct (cumulative_spec (histogram ns max) max (λ k, occurrences k ns))
    as [Hclen Hcumul]; [lia | done | done |].
  split; [done |]. by rewrite Hcumul, prefix_sum_occurrences.
Qed.

Lemma cumulative_counts_witness :
  3 < 5
  ∧ length (cumulative (histogram [0; 1; 1; 3; 5; 5; 2; 9] 5) 5) = 5
  ∧ cumulative (histogram [0; 1; 1; 3; 5; 5; 2; 9] 5) 5 !! 3 = Some (of_nat 5).
Proof.
  split; [lia |]. apply (cumulative_counts [0; 1; 1; 3; 5; 5; 2; 9] 5 3). lia.
Defined.

(** ** [normalize]: the values it returns *)

Section equalized_facts.
Variables (ns : list nat) (max a : nat).
Hypothesis Hin : a ∈ ns.
Hypothesis Ha : a < max.

Let below : nat := length (filter (λ n, n ≤ a) ns).
Let escaping : nat := length (filter (λ n, n < max) ns).

Lemma below_pos : 0 < below.
Proof.
  unfold below. rewrite <-prefix_sum_occurrences.
  pose proof (occurrences_pos a ns Hin).
  pose proof (prefix_sum_ge (λ k, occurrences k ns) a). simpl in *. lia.
Qed.

Lemma below_le_escaping : below ≤ escaping.
Proof.
  unfold below, escaping.
  rewrite <-prefix_sum_occurrences, <-prefix_sum_escaping by lia.
  apply prefix_sum_mono. lia.
Qed.

(** The quotient [cumul[a] / div] is [max] times the share of the escaping
    entries that are at most [a]. *)
Lemma equalized_closed_form :
  equalized ns max a =
  Qceiling (Qc_of_Z (Z.of_nat below) * Qc_of_Z (Z.of_nat max)
            / Qc_of_Z (Z.of_nat escaping))%Qc.
Proof.
  unfold equalized. rewrite prefix_sum_occurrences, prefix_sum_escaping by lia.
  fold below escaping.
  pose proof below_pos. pose proof below_le_escaping.
  assert (He : Qc_of_Z (Z.of_nat escaping) ≠ 0%Qc)
    by (apply not_eq_sym, Qclt_not_eq, Qc_of_nat_pos; lia).
  assert (Hm : Qc_of_Z (Z.of_nat max) ≠ 0%Qc)
    by (apply not_eq_sym, Qclt_not_eq, Qc_of_nat_pos; lia).
  generalize dependent (Qc_of_Z (Z.of_nat escaping)).
  generalize dependent (Qc_of_Z (Z.of_nat max)).
  generalize (Qc_of_Z (Z.of_nat below)).
  intros b m Hm e He. do 2 f_equal. by field.
Qed.

Lemma equalized_bounds : (1 ≤ equalized ns max a ≤ Z.of_nat max)%Z.
Proof.
  rewrite equalized_closed_form.
  pose proof below_pos as Hb. pose proof below_le_escaping as Hbe.
  set (b := Qc_of_Z (Z.of_nat below)).
  set (m := Qc_of_Z (Z.of_nat max)).
  set (e := Qc_of_Z (Z.of_nat escaping)).
  assert (Hb0 : (0 < b)%Qc) by (apply Qc_of_nat_pos; lia).
  assert (Hm0 : (0 < m)%Qc) by (apply Qc_of_nat_pos; lia).
  assert (He0 : (0 < e)%Qc) by (apply Qc_of_nat_pos; lia).
  assert (Hble : (b ≤ e)%Qc) by (by apply Qc_of_nat_le).
  split.
  - assert (Hq : (0 < b * m / e)%Qc)
      by (apply Qcdiv_pos; [by apply Qcmult_pos_pos | done]).
    pose proof (Qle_ceiling (b * m / e)%Qc) as Hc.
    assert (Hz : (0 < inject_Z (Qceiling (b * m / e)%Qc))%Q)
      by (eapply Qlt_le_trans; [exact Hq | exact Hc]).
    rewrite <-(Zlt_Qlt 0) in Hz. lia.
  - rewrite <-(Qceiling_Z (Z.of_nat max)). apply Qceiling_resp_le.
    change (inject_Z (Z.of_nat max)) with (this m).
    change (b * m / e ≤ m)%Qc.
    replace m with (e * m / e)%Qc at 2
      by (field; by apply not_eq_sym, Qclt_not_eq).
    apply Qcdiv_le_mono; [done |].
    apply Qcmult_le_mono_nonneg_r; [by apply Qclt_le_weak | done].
Qed.

(** When no escaping entry is above [a], the quotient is exactly [max]. *)
Lemma equalized_top :
  Forall (λ n, n < max → n ≤ a) ns → equalized ns max a = Z.of_nat max.
Proof.
  intros Htop. rewrite equalized_closed_form.
  assert (Heq : below = escaping).
  { unfold below, escaping. f_equal. apply filter_iff_Forall.
    eapply Forall_impl; [exact Htop |]. simpl. lia. }
  rewrite Heq. pose proof below_pos.
  assert (He : Qc_of_Z (Z.of_nat escaping) ≠ 0%Qc)
    by (apply not_eq_sym, Qclt_not_eq, Qc_of_nat_pos; lia).
  replace (Qc_of_Z (Z.of_nat escaping) * Qc_of_Z (Z.of_nat max)
           / Qc_of_Z (Z.of_nat escaping))%Qc
    with (Qc_of_Z (Z.of_nat max)).
  - apply Qceiling_Z.
  - generalize dependent (Qc_of_Z (Z.of_nat escaping)).
    generalize (Qc_of_Z (Z.of_nat max)). intros m e He. by field.
Qed.
End equalized_facts.







Lemma cumulative_length_0 hist : length (cumulative hist 0) = 1.
Proof. done. Qed.

(** X12: an entry above [max] reads past the end of [cumul]; the result is
    [NaN], not an error. *)
Theorem normalize_above_max_is_nan ns max i n :
  ns !! i = Some n → max < n → normalize ns max !! i = Some NaN.
Proof.
  intros Hi Hn. unfold normalize. rewrite list_lookup_fmap, Hi.
  cbn [fmap option_fmap option_map]. rewrite decide_False by lia.
  assert (Hget : get (cumulative (histogram ns max) max) n = NaN).
  { unfold get. rewrite lookup_ge_None_2; [done |].
    destruct max as [|max]; [rewrite cumulative_length_0; lia |].
    destruct (histogram_spec ns (S max)) as [Hlen Hhist].
    destruct (cumulative_spec (histogram ns (S max)) (S max)
                (λ k, occurrences k ns)) as [Hclen _]; [lia | done | done |].
    lia. }
  by rewrite Hget.
Qed.

Lemma normalize_above_max_is_nan_witness :
  [0; 7; 2] !! 1 = Some 7 ∧ 5 < 7 ∧ normalize [0; 7; 2] 5 !! 1 = Some NaN.
Proof.
  split; [reflexivity |]. split; [lia |].
  apply (normalize_above_max_is_nan [0; 7; 2] 5 1 7); [reflexivity | lia].
Defined.

(** ** The counts and normalized values of a rendered grid *)

Lemma grid_Forall {A} (P : A → Prop) (g : nat → nat → A) w k :
  (∀ r c, P (g r c)) → Forall P (grid g w k).
Proof.
  intros Hg. induction k as [|k IH]; [by apply Forall_nil |].
  rewrite grid_S. apply Forall_app. split; [done |].
  apply Forall_fmap, Forall_forall. intros c _. apply Hg.
Qed.

Lemma nValues_le_max w h x1 x2 y1 y2 max :
  Forall (λ n, n ≤ max) (nValues w h x1 x2 y1 y2 max).
Proof.
  rewrite nValues_grid. apply (grid_Forall (λ n, n ≤ max)). intros r c.
  pose proof (mandel_iter_bounds
                (map #0 (of_nat w) x1 x2 (of_nat c))
                (map #0 (of_nat h) y1 y2 (of_nat r)) max 0
                (map #0 (of_nat w) x1 x2 (of_nat c))
                (map #0 (of_nat h) y1 y2 (of_nat r))).
  unfold mandel. lia.
Qed.

(** X13: every count [createMandelImage] collects lies in [0, max], so
    [normalize] is never given an entry above [max]. *)
Theorem nValues_bounded w h x1 x2 y1 y2 max :
  Forall (λ n, n ≤ max) (nValues w h x1 x2 y1 y2 max).
Proof. apply nValues_le_max. Qed.

Lemma normalize_bounded_input ns max :
  Forall (λ n, n ≤ max) ns →
  Forall (λ v, ∃ z : Z, v = of_Z z ∧ (0 ≤ z ≤ Z.of_nat max)%Z)
         (normalize ns max).
Proof.
  intros Hns. apply Forall_lookup. intros i v Hv.
  assert (Hi : i < length ns)
    by (rewrite <-(normalize_length ns max); by eapply lookup_lt_Some).
  destruct (lookup_lt_is_Some_2 ns i Hi) as [n Hn].
  pose proof (proj1 (Forall_lookup _ _) Hns i n Hn) as Hle. simpl in Hle.
  destruct (decide (n = max)) as [->|Hne].
  - rewrite (normalize_lookup_max ns max i Hn) in Hv.
    injection Hv as <-. exists (Z.of_nat max). split; [done | lia].
  - rewrite (normalize_lookup_below ns max i n Hn) in Hv by lia.
    injection Hv as <-. exists (equalized ns max n). split; [done |].
    pose proof (equalized_bounds ns max n (list_elem_of_lookup_2 _ _ _ Hn)).
    lia.
Qed.


(** ** [toRgb] *)

Lemma min_fin (a b : Qc) :
  Num.min (Fin a) (Fin b) = Fin (if bool_decide (b < a)%Qc then b else a).
Proof. unfold Num.min, lt. by case_bool_decide. Qed.

Lemma max_fin (a b : Qc) :
  Num.max (Fin a) (Fin b) = Fin (if bool_decide (a < b)%Qc then b else a).
Proof. unfold Num.max, lt. by case_bool_decide. Qed.

(** [1 - max(min(k, 4 - k, 1), 0)] lies between 0 and 1. *)
Lemma toRgb_component_unit (k : Qc) :
  unit_interval
    (#1 - Num.max (Num.min (Num.min (Fin k) (#4 - Fin k)) #1) #0)%num.
Proof.
  unfold of_Z. cbn [sub neg add]. rewrite !min_fin, max_fin.
  rewrite Z2Qc_inj_0, Z2Qc_inj_1.
  set (m0 := if bool_decide (Qc_of_Z 4 + - k < k)%Qc
             then (Qc_of_Z 4 + - k)%Qc else k).
  set (m1 := if bool_decide (1 < m0)%Qc then 1%Qc else m0).
  set (v := if bool_decide (m1 < 0)%Qc then 0%Qc else m1).
  assert (Hm1 : (m1 ≤ 1)%Qc).
  { unfold m1. case_bool_decide; [apply Qcle_refl | by apply Qcnot_lt_le]. }
  assert (Hv : (0 ≤ v ≤ 1)%Qc).
  { unfold v. case_bool_decide as Hneg.
    - split; [apply Qcle_refl | done].
    - split; [by apply Qcnot_lt_le | done]. }
  cbn [neg add]. exists (1 + - v)%Qc. split; [done |]. split.
  - apply (proj1 (Qcle_minus_iff v 1)), Hv.
  - rewrite <-(Qcplus_0_r 1) at 2. apply (proj1 (Qcplus_le_mono_l _ _ _)).
    replace 0%Qc with (- 0)%Qc by ring. apply Qcopp_le_compat, Hv.
Qed.

Lemma rem_fin_6 (a : Qc) : ∃ k : Qc, rem (Fin a) #6 = Fin k.
Proof.
  unfold rem, of_Z. rewrite bool_decide_eq_false_2 by Qc_discriminate. eauto.
Qed.

(** One component of [toRgb]: the function [f] of the source. *)
Lemma toRgb_f_unit (n : Z) (h : Qc) :
  unit_interval
    (#1 - Num.max
            (Num.min (Num.min (rem (#n + Fin h / #60) #6)
                              (#4 - rem (#n + Fin h / #60) #6)) #1) #0)%num.
Proof.
  assert (Hh : (#n + Fin h / #60)%num = Fin (Qc_of_Z n + h / Qc_of_Z 60)).
  { unfold of_Z. rewrite div_fin; [done | Qc_discriminate]. }
  rewrite Hh. destruct (rem_fin_6 (Qc_of_Z n + h / Qc_of_Z 60)) as [k ->].
  apply toRgb_component_unit.
Qed.

(** X15: for a finite hue the three components [toRgb] returns lie between
    0 and 1. *)
Theorem toRgb_components_in_unit_interval (h : Qc) :
  let '(r, g, b) := toRgb (Fin h) in
  unit_interval r ∧ unit_interval g ∧ unit_interval b.
Proof. unfold toRgb. repeat split; apply toRgb_f_unit. Qed.

(** ** [createMandelImage]: the buffer *)

Section image_buffer.
Variable max : nat.

(** The body of the [forEach] that fills the buffer. *)
Let write (d : list Z) (p : nat * number) : list Z :=
  let i := p.1 in
  let n := p.2 in
  let ind := (i * 4)%nat in
  let m := (n / of_nat max * #255)%num in
  let '(r, g, b) :=
    if eqb n (of_nat max) then (#0, #0, #0)%num else toRgb m in
  let d := store d (ind + 0) (r * #255)%num in
  let d := store d (ind + 1) (g * #255)%num in
  let d := store d (ind + 2) (b * #255)%num in
  store d (ind + 3) (#255)%num.

Lemma pixel_length n : length (pixel max n) = 4.
Proof. unfold pixel. by destruct (if eqb n (of_nat max) then _ else _) as [[r g] b]. Qed.

(** One round of the [forEach] overwrites the four bytes at [4 * i]. *)
Lemma write_pixel (done_ : list Z) b0 b1 b2 b3 (rest : list Z) i n :
  length done_ = i * 4 →
  write (done_ ++ b0 :: b1 :: b2 :: b3 :: rest) (i, n) =
  done_ ++ pixel max n ++ rest.
Proof.
  intros Hlen. unfold write, pixel, store. cbn [fst snd].
  destruct (if eqb n (of_nat max) then _ else _) as [[r g] b].
  rewrite <-Hlen. by rewrite !insert_app_r.
Qed.

Lemma write_pixels (l : list number) (d0 : list Z) :
  4 * length l ≤ length d0 →
  foldl write d0 (zip (seq 0 (length l)) l) =
  concat (pixel max <$> l) ++ drop (4 * length l) d0.
Proof.
  induction l as [|n l IH] using rev_ind; intros Hlen; [done |].
  rewrite length_app in *. cbn [length] in *.
  replace (length l + 1) with (S (length l)) in * by lia.
  rewrite seq_S, zip_with_app by (by rewrite length_seq).
  rewrite foldl_app, IH by lia. cbn [zip_with foldl Nat.add].
  assert (Hdone : length (concat (pixel max <$> l)) = length l * 4).
  { clear. induction l as [|x l IHl]; [done |].
    rewrite fmap_cons. cbn [concat]. rewrite length_app, pixel_length, IHl.
    simpl. lia. }
  destruct (drop (4 * length l) d0) as [|b0 [|b1 [|b2 [|b3 rest]]]] eqn:Hdrop;
    try (apply (f_equal length) in Hdrop; rewrite length_drop in Hdrop;
         simpl in Hdrop; lia).
  rewrite write_pixel by done.
  rewrite fmap_app, concat_app. cbn [fmap list_fmap concat].
  rewrite app_nil_r, <-app_assoc. do 2 f_equal.
  replace (4 * S (length l)) with (4 * length l + 4) by lia.
  by rewrite <-drop_drop, Hdrop.
Qed.

(** The buffer [createMandelImage] returns is the row-major concatenation
    of the four bytes of each normalized value. *)
Lemma createMandelImage_data w h x1 x2 y1 y2 :
  data (createMandelImage w h x1 x2 y1 y2 max) =
  concat (pixel max <$> normalize (nValues w h x1 x2 y1 y2 max) max).
Proof.
  unfold createMandelImage. cbn [data createImageData].
  change (foldl _ ?d ?z) with (foldl write d z).
  assert (Hlen : length (normalize (nValues w h x1 x2 y1 y2 max) max) = w * h).
  { rewrite normalize_length, nValues_grid, grid_length. lia. }
  rewrite write_pixels by (rewrite length_replicate; lia).
  rewrite drop_ge by (rewrite length_replicate; lia).
  by rewrite app_nil_r.
Qed.
End image_buffer.

Lemma concat_mjoin {A} (ls : list (list A)) : concat ls = mjoin ls.
Proof. induction ls as [|l ls IH]; [done |]. simpl. by rewrite IH. Qed.

(** Whatever number is stored, the byte that lands in the buffer is between
    0 and 255. *)
Lemma to_uint8_clamp_range x : (0 ≤ to_uint8_clamp x ≤ 255)%Z.
Proof.
  destruct x as [q| | |]; simpl; try lia.
  case_bool_decide as Hlo; [lia |]. case_bool_decide as Hhi; [lia |].
  apply Qcnot_le_lt in Hlo, Hhi.
  assert (Hf0 : (0 ≤ Qfloor q)%Z).
  { rewrite <-(Qfloor_Z 0). apply Qfloor_resp_le. by apply Qclt_le_weak in Hlo. }
  assert (Hf1 : (Qfloor q < 255)%Z).
  { rewrite Zlt_Qlt. eapply Qle_lt_trans; [apply Qfloor_le | exact Hhi]. }
  unfold round_half_even. repeat case_bool_decide; try case_match; lia.
Qed.

Lemma pixel_lookup max (l : list number) i k n :
  l !! i = Some n → k < 4 →
  concat (pixel max <$> l) !! (i * 4 + k) = pixel max n !! k.
Proof.
  intros Hi Hk. rewrite concat_mjoin.
  assert (Hall : Forall (λ p, length p = 4) (pixel max <$> l)).
  { apply Forall_fmap, Forall_forall. intros x _. apply pixel_length. }
  destruct (lookup_lt_is_Some_2 (pixel max n) k) as [b Hb];
    [by rewrite pixel_length |].
  rewrite Hb. apply (join_lookup_Some_same_length' 4); [done | done |].
  exists (pixel max n). split; [| done]. by rewrite list_lookup_fmap, Hi.
Qed.

Lemma pixel_alpha max n : pixel max n !! 3 = Some 255%Z.
Proof.
  unfold pixel. destruct (if eqb n (of_nat max) then _ else _) as [[r g] b].
  by vm_compute.
Qed.

Lemma pixel_of_max max :
  pixel max (of_nat max) = [0; 0; 0; 255]%Z.
Proof.
  unfold pixel. replace (eqb (of_nat max) (of_nat max)) with true.
  - by vm_compute.
  - symmetry. unfold of_nat, of_Z, eqb. by apply bool_decide_eq_true_2.
Qed.

Lemma image_length w h x1 x2 y1 y2 max :
  length (normalize (nValues w h x1 x2 y1 y2 max) max) = w * h.
Proof. rewrite normalize_length, nValues_grid, grid_length. lia. Qed.

(** X16: the buffer holds four bytes per pixel, each between 0 and 255. *)
Theorem createMandelImage_buffer_shape w h x1 x2 y1 y2 max :
  length (data (createMandelImage w h x1 x2 y1 y2 max)) = 4 * (w * h)
  ∧ Forall (λ b, (0 ≤ b ≤ 255)%Z)
           (data (createMandelImage w h x1 x2 y1 y2 max)).
Proof.
  rewrite createMandelImage_data, concat_mjoin. split.
  - rewrite length_join, (sum_list_fmap_same 4).
    + rewrite length_fmap, image_length. lia.
    + apply Forall_fmap, Forall_forall. intros x _. apply pixel_length.
  - apply Forall_join, Forall_fmap, Forall_forall. intros n _.
    unfold compose, pixel.
    destruct (if eqb n (of_nat max) then _ else _) as [[r g] b].
    repeat constructor; apply to_uint8_clamp_range.
Qed.

(** X17: every pixel is fully opaque: the fourth byte of each pixel is
    255. *)
Theorem createMandelImage_opaque w h x1 x2 y1 y2 max i :
  i < w * h →
  data (createMandelImage w h x1 x2 y1 y2 max) !! (i * 4 + 3) = Some 255%Z.
Proof.
  intros Hi. rewrite createMandelImage_data.
  destruct (lookup_lt_is_Some_2
              (normalize (nValues w h x1 x2 y1 y2 max) max) i) as [n Hn];
    [by rewrite image_length |].
  rewrite (pixel_lookup max _ i 3 n) by (done || lia). apply pixel_alpha.
Qed.

Lemma createMandelImage_opaque_witness :
  4 < 3 * 2
  ∧ data (createMandelImage 3 2 #(-2) #2 #(-2) #2 10) !! (4 * 4 + 3) =
    Some 255%Z.
Proof.
  split; [lia |].
  apply (createMandelImage_opaque 3 2 #(-2) #2 #(-2) #2 10 4). lia.
Defined.

Lemma black_pixel w h x1 x2 y1 y2 max i :
  normalize (nValues w h x1 x2 y1 y2 max) max !! i = Some (of_nat max) →
  take 4 (drop (i * 4) (data (createMandelImage w h x1 x2 y1 y2 max))) =
  [0; 0; 0; 255]%Z.
Proof.
  intros Hn. rewrite createMandelImage_data.
  apply list_eq. intros k. rewrite <-(pixel_of_max max).
  destruct (decide (k < 4)) as [Hk|Hk].
  - rewrite lookup_take_lt, lookup_drop by done.
    by apply pixel_lookup.
  - rewrite lookup_take_ge by lia. symmetry. apply lookup_ge_None_2.
    rewrite pixel_length. lia.
Qed.

(** X18: a pixel whose count is [max] (a point that did not escape) is
    black. *)
Theorem interior_pixel_is_black w h x1 x2 y1 y2 max i :
  nValues w h x1 x2 y1 y2 max !! i = Some max →
  take 4 (drop (i * 4) (data (createMandelImage w h x1 x2 y1 y2 max))) =
  [0; 0; 0; 255]%Z.
Proof. intros Hi. by apply black_pixel, normalize_lookup_max. Qed.

Lemma interior_pixel_is_black_witness :
  nValues 3 2 #(-2) #2 #(-2) #2 10 !! 3 = Some 10
  ∧ take 4 (drop (3 * 4) (data (createMandelImage 3 2 #(-2) #2 #(-2) #2 10))) =
    [0; 0; 0; 255]%Z.
Proof.
  assert (Hi : nValues 3 2 #(-2) #2 #(-2) #2 10 !! 3 = Some 10)
    by (by vm_compute).
  split; [exact Hi |].
  exact (interior_pixel_is_black 3 2 #(-2) #2 #(-2) #2 10 3 Hi).
Defined.



(** ** The viewport: what is drawn *)

Lemma update_image s :
  imageData (update s) =
  createMandelImage w h (xRange s).1 (xRange s).2 (yRange s).1 (yRange s).2 max.
Proof. unfold update. by destruct (xRange s), (yRange s). Qed.

Lemma update_canvas s : canvas (update s) = canvas s.
Proof. unfold update. by destruct (xRange s), (yRange s). Qed.

(** What [update(); redraw()] leaves behind: the ranges it found, their
    image, and that image on top of the canvas. *)
Lemma update_redraw s :
  let s' := redraw (update s) in
  xRange s' = xRange s ∧ yRange s' = yRange s
  ∧ imageData s' =
    createMandelImage w h (xRange s).1 (xRange s).2 (yRange s).1 (yRange s).2 max
  ∧ last_put (canvas s') = Some (imageData s').
Proof.
  cbn zeta. destruct (update_vars s) as (Hx & Hy & _).
  unfold redraw. cbn [xRange yRange imageData canvas last_put].
  by rewrite Hx, Hy, update_image.
Qed.

Lemma handle_display_ok s ev : display_ok s → display_ok (handle s ev).
Proof.
  intros [Himg Hput]. destruct ev as [e|e|e|e]; cbn [handle].
  - split; [exact Himg | exact Hput].
  - unfold mouseMove. repeat case_match.
    + split; [exact Himg | reflexivity].
    + split; [exact Himg | exact Hput].
    + split; [exact Himg | exact Hput].
  - unfold mouseUp. cbn zeta.
    match goal with |- context [update ?s1] =>
      destruct (update_redraw s1) as (Hx & Hy & Hi & Hp) end.
    cbn zeta in *. unfold display_ok. cbn [xRange yRange imageData canvas].
    rewrite Hx, Hy. split; [exact Hi | exact Hp].
  - unfold keyDown. case_bool_decide; [| split; [exact Himg | exact Hput]].
    match goal with |- display_ok (redraw (update ?s1)) =>
      destruct (update_redraw s1) as (Hx & Hy & Hi & Hp) end.
    cbn zeta in *. unfold display_ok. rewrite Hx, Hy.
    split; [exact Hi | exact Hp].
Qed.

Lemma init_display_ok : display_ok init.
Proof. split; reflexivity. Qed.

Lemma run_display_ok evs : display_ok (run evs init).
Proof.
  unfold run. generalize init_display_ok. generalize init.
  induction evs as [|ev evs IH]; intros s Hs; [exact Hs |].
  cbn [foldl]. apply IH, handle_display_ok, Hs.
Qed.

(** X20: after any sequence of events the stored image is the rendering of
    the current ranges: every change of the ranges is followed by
    [update()]. *)
Theorem image_matches_ranges (evs : list event) :
  let s := run evs init in
  imageData s =
  createMandelImage w h (xRange s).1 (xRange s).2 (yRange s).1 (yRange s).2 max.
Proof. exact (proj1 (run_display_ok evs)). Qed.

(** X21: after any sequence of events the image most recently put on the
    canvas is the stored one: a selection rectangle is always drawn over
    the current image, never over a stale one. *)
Theorem canvas_shows_current_image (evs : list event) :
  let s := run evs init in last_put (canvas s) = Some (imageData s).
Proof. exact (proj2 (run_display_ok evs)). Qed.

(** X22: presses and moves never change the view: the ranges and the image
    after any number of them are those before. *)
Theorem press_and_move_keep_view evs s :
  Forall (λ ev, is_press_or_move ev = true) evs →
  xRange (run evs s) = xRange s ∧ yRange (run evs s) = yRange s
  ∧ imageData (run evs s) = imageData s.
Proof.
  intros Hevs. revert s. unfold run.
  induction Hevs as [|ev evs Hev _ IH]; intros s; [done |].
  simpl. destruct (IH (handle s ev)) as (Hx & Hy & Hi). rewrite Hx, Hy, Hi.
  destruct ev as [e|e|e|e]; try done; cbn [handle].
  unfold mouseMove. by repeat case_match.
Qed.

Lemma press_and_move_keep_view_witness :
  let evs := [MouseDown (MouseEvent (Qc_of_Z 10) (Qc_of_Z 10));
              MouseMove (MouseEvent (Qc_of_Z 50) (Qc_of_Z 10))] in
  Forall (λ ev, is_press_or_move ev = true) evs
  ∧ xRange (run evs init) = xRange init.
Proof.
  intros evs.
  assert (Hevs : Forall (λ ev, is_press_or_move ev = true) evs)
    by (repeat constructor).
  split; [exact Hevs |].
  exact (proj1 (press_and_move_keep_view evs init Hevs)).
Defined.

(** ** The viewport: zooming in by selection *)

Lemma w_q_neq_0 : Qc_of_Z 0 ≠ Qc_of_Z (Z.of_nat w).
Proof. Qc_discriminate. Qed.

Lemma h_q_neq_0 : Qc_of_Z 0 ≠ Qc_of_Z (Z.of_nat h).
Proof. Qc_discriminate. Qed.

Lemma ratio_q_w_h : ratio_q = (Qc_of_Z (Z.of_nat w) / Qc_of_Z (Z.of_nat h))%Qc.
Proof. done. Qed.

Lemma map_from_0 (W t1 t2 p : Qc) :
  W ≠ 0%Qc →
  map (Fin 0%Qc) (Fin W) (Fin t1) (Fin t2) (Fin p) =
  Fin (t1 + p / W * (t2 - t1)).
Proof.
  intros HW. rewrite map_fin by (by apply not_eq_sym). f_equal. by field.
Qed.

(** [realPos] on finite ranges and a finite position. *)
Lemma realPos_fin s (x1 x2 y1 y2 px py : Qc) :
  xRange s = (Fin x1, Fin x2) → yRange s = (Fin y1, Fin y2) →
  realPos s (Fin px, Fin py) =
  (Fin (x1 + px / Qc_of_Z (Z.of_nat w) * (x2 - x1)),
   Fin (y1 + py / Qc_of_Z (Z.of_nat h) * (y2 - y1))).
Proof.
  intros Hx Hy. unfold realPos. rewrite Hx, Hy. cbn [fst snd].
  pose proof w_q_neq_0 as Hw. pose proof h_q_neq_0 as Hh.
  unfold of_nat, of_Z. rewrite Z2Qc_inj_0 in *.
  by rewrite !map_from_0 by (by apply not_eq_sym).
Qed.

(** The ranges a wide release leaves, on finite ranges and a finite
    start. *)
Lemma mouseUp_wide_fin s e (x1 x2 y1 y2 sx sy : Qc) :
  xRange s = (Fin x1, Fin x2) → yRange s = (Fin y1, Fin y2) →
  start s = (Fin sx, Fin sy) →
  (Qc_of_Z 2 < canvasX e - sx)%Qc →
  xRange (mouseUp e s) =
    (Fin (x1 + sx / Qc_of_Z (Z.of_nat w) * (x2 - x1)),
     Fin (x1 + canvasX e / Qc_of_Z (Z.of_nat w) * (x2 - x1)))
  ∧ yRange (mouseUp e s) =
    (Fin (y1 + sy / Qc_of_Z (Z.of_nat h) * (y2 - y1)),
     Fin (y1 + (sy + (canvasX e - sx) / ratio_q) / Qc_of_Z (Z.of_nat h)
               * (y2 - y1))).
Proof.
  intros Hx Hy Hs Hwide.
  assert (Hend : endPos s e =
                 (Fin (canvasX e), Fin (sy + (canvasX e - sx) / ratio_q))).
  { unfold endPos. rewrite Hs, ratio_fin. cbn [canvasPos fst snd sub neg add].
    by rewrite div_fin by apply ratio_q_neq_0. }
  destruct (mouseUp_ranges_wide e s) as [Hx' Hy'].
  { rewrite Hend, Hs. cbn [fst snd sub neg add gt lt of_Z].
    by apply bool_decide_eq_true_2. }
  rewrite Hx', Hy', Hend, Hs.
  by rewrite !(realPos_fin s x1 x2 y1 y2) by done.
Qed.

Lemma mouseUp_wide_widths s e (x1 x2 y1 y2 sx sy : Qc) :
  xRange s = (Fin x1, Fin x2) → yRange s = (Fin y1, Fin y2) →
  start s = (Fin sx, Fin sy) →
  (Qc_of_Z 2 < canvasX e - sx)%Qc →
  ∃ x1' x2' y1' y2' : Qc,
    xRange (mouseUp e s) = (Fin x1', Fin x2')
    ∧ yRange (mouseUp e s) = (Fin y1', Fin y2')
    ∧ (x2' - x1' = (canvasX e - sx) / Qc_of_Z 1900 * (x2 - x1))%Qc
    ∧ (y2' - y1' = (canvasX e - sx) / Qc_of_Z 1900 * (y2 - y1))%Qc.
Proof.
  intros Hx Hy Hs Hwide.
  destruct (mouseUp_wide_fin s e x1 x2 y1 y2 sx sy) as [Hx' Hy']; try done.
  do 4 eexists. split; [exact Hx' |]. split; [exact Hy' |].
  rewrite ratio_q_w_h.
  change (Qc_of_Z 1900) with (Qc_of_Z (Z.of_nat w)).
  pose proof w_q_neq_0 as Hw. pose proof h_q_neq_0 as Hh.
  rewrite Z2Qc_inj_0 in Hw, Hh.
  set (W := Qc_of_Z (Z.of_nat w)) in *. set (H := Qc_of_Z (Z.of_nat h)) in *.
  clearbody W H. split; field; auto.
Qed.



(** ** The viewport: proportions *)

Lemma init_aspect_ok : aspect_ok init.
Proof.
  split; [| by exists (Qc_of_Z 0), (Qc_of_Z 0)].
  exists (Qc_of_Z (-2)), (Qc_of_Z 2),
         (Qc_of_Z (-2) / ratio_q)%Qc, (Qc_of_Z 2 / ratio_q)%Qc.
  split; [done |]. split.
  - cbn [init yRange]. rewrite ratio_fin. unfold of_Z.
    by rewrite !div_fin by apply ratio_q_neq_0.
  - apply Qc_is_canon. by vm_compute.
Qed.

Lemma handle_aspect_ok s ev : aspect_ok s → aspect_ok (handle s ev).
Proof.
  intros [(x1 & x2 & y1 & y2 & Hx & Hy & Hasp) (sx & sy & Hs)].
  destruct ev as [e|e|e|e]; cbn [handle].
  - split; [by exists x1, x2, y1, y2 | by exists (canvasX e), (canvasY e)].
  - destruct (mouseMove_vars e s) as (Hx' & Hy' & Hs').
    unfold aspect_ok. rewrite Hx', Hy', Hs'.
    split; [by exists x1, x2, y1, y2 | by exists sx, sy].
  - split; [| rewrite mouseUp_start; by exists sx, sy].
    destruct (((endPos s e).1 - (start s).1 >? #2)%num) eqn:Hw.
    + assert (Hwide : (Qc_of_Z 2 < canvasX e - sx)%Qc).
      { unfold endPos in Hw. rewrite Hs in Hw.
        cbn [canvasPos fst snd sub neg add gt lt of_Z] in Hw.
        by apply bool_decide_eq_true_1 in Hw. }
      destruct (mouseUp_wide_widths s e x1 x2 y1 y2 sx sy)
        as (x1' & x2' & y1' & y2' & Hx' & Hy' & Hxw & Hyw); try done.
      exists x1', x2', y1', y2'. split; [done |]. split; [done |].
      rewrite Hxw, Hyw, Hasp. ring.
    + destruct (mouseUp_ranges_narrow e s Hw) as [Hx' Hy'].
      rewrite Hx', Hy'. by exists x1, x2, y1, y2.
  - destruct (decide (key e = "z")) as [Hz|Hz];
      [| rewrite keyDown_other_vars by done;
         split; [by exists x1, x2, y1, y2 | by exists sx, sy]].
    destruct (keyDown_z_vars e s Hz) as (Hx' & Hy' & Hs').
    unfold aspect_ok. rewrite Hx', Hy', Hs', Hx, Hy, !zoomOut_fin.
    split; [| by exists sx, sy].
    do 4 eexists. split; [done |]. split; [done |].
    replace ((x1 + x2) / Qc_of_Z 2 + (x2 - x1)
             - ((x1 + x2) / Qc_of_Z 2 - (x2 - x1)))%Qc
      with ((1 + 1) * (x2 - x1))%Qc by ring.
    replace ((y1 + y2) / Qc_of_Z 2 + (y2 - y1)
             - ((y1 + y2) / Qc_of_Z 2 - (y2 - y1)))%Qc
      with ((1 + 1) * (y2 - y1))%Qc by ring.
    rewrite Hasp. ring.
Qed.


(** ** The viewport: zooming out *)



Lemma zoomOut_iter (n : nat) (a b : Qc) :
  ∃ a' b' : Qc,
    Nat.iter n zoomOut (Fin a, Fin b) = (Fin a', Fin b')
    ∧ (b' - a' = Qc_of_Z (2 ^ Z.of_nat n) * (b - a))%Qc
    ∧ (a' + b' = a + b)%Qc.
Proof.
  induction n as [|n (a' & b' & Hiter & Hwidth & Hmid)].
  - exists a, b. split; [done |]. split; [| done].
    change (Qc_of_Z (2 ^ Z.of_nat 0)) with (Qc_of_Z 1).
    rewrite Z2Qc_inj_1. ring.
  - rewrite Nat.iter_succ, Hiter, zoomOut_fin. do 2 eexists.
    split; [done |]. split.
    + replace (2 ^ Z.of_nat (S n))%Z with (2 * 2 ^ Z.of_nat n)%Z
        by (rewrite Nat2Z.inj_succ, Z.pow_succ_r; lia).
      rewrite Z2Qc_inj_mul, Z2Qc_inj_2, <-Qcmult_assoc, <-Hwidth. ring.
    + rewrite <-Hmid. Qc_field.
Qed.

Lemma run_zoom_keys (n : nat) s :
  let evs := replicate n (KeyDown (KeyEvent "z")) in
  xRange (run evs s) = Nat.iter n zoomOut (xRange s)
  ∧ yRange (run evs s) = Nat.iter n zoomOut (yRange s).
Proof.
  cbn zeta. revert s. induction n as [|n IH]; intros s; [done |].
  cbn [replicate]. unfold run in *. cbn [foldl handle].
  destruct (IH (keyDown (KeyEvent "z") s)) as [Hx Hy]. rewrite Hx, Hy.
  destruct (keyDown_z_vars (KeyEvent "z") s) as (Hx' & Hy' & _); [done |].
  rewrite Hx', Hy'. by rewrite <-!Nat.iter_succ_r.
Qed.



(** ** The viewport: zooming out, then back in *)

Lemma quarter_x : (Qc_of_Z 475 / Qc_of_Z (Z.of_nat w) = / (1 + 1 + 1 + 1))%Qc.
Proof. apply Qc_is_canon. by vm_compute. Qed.

Lemma three_quarters_x :
  (Qc_of_Z 1425 / Qc_of_Z (Z.of_nat w) = (1 + 1 + 1) / (1 + 1 + 1 + 1))%Qc.
Proof. apply Qc_is_canon. by vm_compute. Qed.

Lemma quarter_y :
  (Qc_of_Z 435 / Qc_of_Z 2 / Qc_of_Z (Z.of_nat h) = / (1 + 1 + 1 + 1))%Qc.
Proof. apply Qc_is_canon. by vm_compute. Qed.

Lemma three_quarters_y :
  ((Qc_of_Z 435 / Qc_of_Z 2 + (Qc_of_Z 1425 - Qc_of_Z 475) / ratio_q)
   / Qc_of_Z (Z.of_nat h) = (1 + 1 + 1) / (1 + 1 + 1 + 1))%Qc.
Proof. apply Qc_is_canon. by vm_compute. Qed.

Lemma four_neq_0 : (1 + 1 + 1 + 1)%Qc ≠ 0%Qc.
Proof. Qc_discriminate. Qed.



(** ** [mandel]: symmetry *)

Lemma mandel_iter_conjugate (x y : Qc) left n (a b : Qc) :
  mandel_iter (Fin x) (Fin (- y)) left n (Fin a) (Fin (- b)) =
  mandel_iter (Fin x) (Fin y) left n (Fin a) (Fin b).
Proof.
  revert n a b. induction left as [|left IH]; intros n a b; [done |].
  cbn [mandel_iter mul add sub neg gt lt of_Z].
  replace (a * a + - b * - b)%Qc with (a * a + b * b)%Qc by ring.
  case_bool_decide; [done |].
  replace (a * a + - (- b * - b) + x)%Qc with (a * a + - (b * b) + x)%Qc
    by ring.
  replace (Qc_of_Z 2 * a * - b + - y)%Qc with (- (Qc_of_Z 2 * a * b + y))%Qc
    by ring.
  apply IH.
Qed.

(** X28: the count is the same at a point and at its mirror image across
    the real axis, so the rendered set is symmetric about that axis. *)
Theorem mandel_conjugate_symmetric (x y : Qc) (max : nat) :
  mandel (Fin x) (Fin (- y)) max = mandel (Fin x) (Fin y) max.
Proof. unfold mandel. apply mandel_iter_conjugate. Qed.
